(** * ASDB: MSSQL to PostgreSQL migration — schema translation and dependency ordering

    A shallow embedding of [type-mapper.js] (type and default translation) and
    of the orchestration in the migration script (identifier composition,
    foreign-key creation, dependency resolver, data-load loop), followed by the
    theorems that settle the specification's claims on that code.

    Conventions of the embedding:
    - JavaScript strings are [string]s of 8-bit characters; [toLowerCase] and
      [trim] act on the ASCII range, and are those of the host language on
      the strings of ASCII characters ([isAscii]).
    - A nullable number ([maxLength], [precision], [scale]) is an [option Z]:
      the catalog reports integers; a template literal renders an integer in
      decimal ([pretty]).
    - An object literal used as a lookup table is a [gmap string string] on the
      keys the literal declares; the properties it inherits are not in it, and
      what is stated of a lookup is stated of the other names
      ([inheritedKey], [inheritedProperty]). A [Set] that is only tested for
      membership is a [gset string]; a [Set] or array that is iterated is a
      [list].
    - The process-wide [stats] accumulator, the console, the warnings of the
      run log and the operations sent to the target connection form the
      [World] every effectful function reads and returns; informational log
      lines are left out.
    - What the two database connections answer is a parameter of the
      orchestration. An introspection call that throws, or a phase 1 that
      throws on what it was answered, is not among these answers: what is
      stated of a phase or of a whole run is stated of the catalogs on which
      phase 1 raises no exception ([plainCatalog]). *)

From stdpp Require Import gmap strings list pretty.
From Stdlib Require Import ZArith Ascii.

Local Open Scope Z_scope.

(** ** The world: statistics accumulator, console, run log *)

Record Stats := mkStats {
  tablesProcessed : nat;
  tablesCreated : nat;
  primaryKeysCreated : nat;
  foreignKeysCreated : nat;
  totalRowsMigrated : nat;
  errors : nat;
  warnings : nat
}.

(** One line of the run log: level, category, message. *)
Inductive LogLevel := WARNING | ERROR.

Record LogEntry := mkLog {
  logLevel : LogLevel;
  logCategory : string;
  logMessage : string
}.

(** What the target connection is asked to do, in the order it is asked.
    Each operation carries the identifiers interpolated into its statement. *)
Record ColumnDef := mkColumnDef {
  colName : string;
  colType : string;
  colNotNull : bool;
  colDefault : option string
}.

Inductive TargetOp :=
  | CreateTableIfNotExists (pgTableName : string) (columnDefs : list ColumnDef)
      (primaryKey : option (string * list string))
      (uniqueConstraints : list (string * list string))
  | AlterTableAddConstraint (sourceTable fkName : string)
      (sourceColumns : list string) (targetTable : string)
      (targetColumns : list string) (deleteAction updateAction : string)
  | MigrateTableData (schemaName tableName : string)
  | ResetSequence (fullTable columnName : string).

Record World := mkWorld {
  stats : Stats;
  console : list string;
  logger : list LogEntry;
  target : list TargetOp
}.

Definition initialStats : Stats := mkStats 0 0 0 0 0 0 0.
Definition initialWorld : World := mkWorld initialStats [] [] [].

(** Effectful code is a function from the world to a result and a world. *)
Definition M (A : Type) : Type := World → A * World.

Global Instance M_ret : MRet M := λ A a w, (a, w).
Global Instance M_bind : MBind M := λ A B k m w, let '(a, w') := m w in k a w'.

(** [console.warn(msg)] *)
Definition console_warn (msg : string) : M unit :=
  λ w, (tt, mkWorld (stats w) (console w ++ [msg]) (logger w) (target w)).

(** [logger.warning(category, msg)] *)
Definition logger_warning (category msg : string) : M unit :=
  λ w, (tt, mkWorld (stats w) (console w)
              (logger w ++ [mkLog WARNING category msg]) (target w)).

(** [stats.warnings++] and the other updates of the accumulator *)
Definition incrWarnings (s : Stats) : Stats :=
  mkStats (tablesProcessed s) (tablesCreated s) (primaryKeysCreated s)
          (foreignKeysCreated s) (totalRowsMigrated s) (errors s) (S (warnings s)).

Definition incrErrors (s : Stats) : Stats :=
  mkStats (tablesProcessed s) (tablesCreated s) (primaryKeysCreated s)
          (foreignKeysCreated s) (totalRowsMigrated s) (S (errors s)) (warnings s).

Definition setTablesProcessed (n : nat) (s : Stats) : Stats :=
  mkStats n (tablesCreated s) (primaryKeysCreated s)
          (foreignKeysCreated s) (totalRowsMigrated s) (errors s) (warnings s).

Definition incrTablesCreated (withPrimaryKey : bool) (s : Stats) : Stats :=
  mkStats (tablesProcessed s) (S (tablesCreated s))
          (if withPrimaryKey then S (primaryKeysCreated s) else primaryKeysCreated s)
          (foreignKeysCreated s) (totalRowsMigrated s) (errors s) (warnings s).

Definition incrForeignKeysCreated (s : Stats) : Stats :=
  mkStats (tablesProcessed s) (tablesCreated s) (primaryKeysCreated s)
          (S (foreignKeysCreated s)) (totalRowsMigrated s) (errors s) (warnings s).

Definition addRowsMigrated (n : nat) (s : Stats) : Stats :=
  mkStats (tablesProcessed s) (tablesCreated s) (primaryKeysCreated s)
          (foreignKeysCreated s) (totalRowsMigrated s + n) (errors s) (warnings s).

Definition updateStats (f : Stats → Stats) : M unit :=
  λ w, (tt, mkWorld (f (stats w)) (console w) (logger w) (target w)).

(** [await pgPool.query(...)] and the like: the operation reaches the target. *)
Definition issue (op : TargetOp) : M unit :=
  λ w, (tt, mkWorld (stats w) (console w) (logger w) (target w ++ [op])).

(** ** String primitives of the host language *)

Definition toLowerChar (c : ascii) : ascii :=
  let n := nat_of_ascii c in
  if ((65 <=? n) && (n <=? 90))%nat then ascii_of_nat (n + 32) else c.

Fixpoint toLowerCase (s : string) : string :=
  match s with
  | EmptyString => EmptyString
  | String c r => String (toLowerChar c) (toLowerCase r)
  end.

Definition isSpace (c : ascii) : bool :=
  let n := nat_of_ascii c in
  (((9 <=? n) && (n <=? 13)) || (n =? 32))%nat.

Definition isEmpty (s : string) : bool :=
  match s with EmptyString => true | _ => false end.

(** Drop the longest prefix, resp. suffix, of characters satisfying [p]. *)
Fixpoint dropStart (p : ascii → bool) (s : string) : string :=
  match s with
  | EmptyString => EmptyString
  | String c r => if p c then dropStart p r else s
  end.

Fixpoint dropEnd (p : ascii → bool) (s : string) : string :=
  match s with
  | EmptyString => EmptyString
  | String c r =>
      let r' := dropEnd p r in
      if p c && isEmpty r' then EmptyString else String c r'
  end.

(** [String.prototype.trim] on the blanks of the ASCII range; the host
    language also trims the no-break space and the blanks beyond ([isAscii]
    marks the strings on which the two agree). *)
Definition trim (s : string) : string := dropEnd isSpace (dropStart isSpace s).

Fixpoint startsWith (prefix s : string) : bool :=
  match prefix, s with
  | EmptyString, _ => true
  | String a p, String b r => Ascii.eqb a b && startsWith p r
  | String _ _, EmptyString => false
  end.

Definition isDigit (c : ascii) : bool :=
  let n := nat_of_ascii c in ((48 <=? n) && (n <=? 57))%nat.

(** [/^\d+$/] *)
Fixpoint allDigits (s : string) : bool :=
  match s with
  | EmptyString => true
  | String c r => isDigit c && allDigits r
  end.

Definition digits1 (s : string) : bool := negb (isEmpty s) && allDigits s.

Fixpoint takeDigits (s : string) : string :=
  match s with
  | String c r => if isDigit c then String c (takeDigits r) else EmptyString
  | EmptyString => EmptyString
  end.

(** ** type-mapper.js: TYPE_MAPPINGS *)

(** The entries of the literal. In the source a lookup of [constructor] or
    of [__proto__] finds a property that the object inherits, which is no
    entry here: see [inheritedKey]. *)
Definition TYPE_MAPPINGS : gmap string string :=
  list_to_map [
    ("bigint", "BIGINT"); ("int", "INTEGER"); ("smallint", "SMALLINT");
    ("tinyint", "SMALLINT"); ("bit", "BOOLEAN"); ("decimal", "DECIMAL");
    ("numeric", "NUMERIC"); ("money", "DECIMAL(19,4)");
    ("smallmoney", "DECIMAL(10,4)");
    ("float", "DOUBLE PRECISION"); ("real", "REAL");
    ("date", "DATE"); ("datetime", "TIMESTAMP"); ("datetime2", "TIMESTAMP");
    ("datetimeoffset", "TIMESTAMP WITH TIME ZONE");
    ("smalldatetime", "TIMESTAMP"); ("time", "TIME");
    ("char", "CHAR"); ("varchar", "VARCHAR"); ("text", "TEXT");
    ("nchar", "CHAR"); ("nvarchar", "VARCHAR"); ("ntext", "TEXT");
    ("binary", "BYTEA"); ("varbinary", "BYTEA"); ("image", "BYTEA");
    ("uniqueidentifier", "UUID"); ("xml", "XML"); ("sql_variant", "TEXT");
    ("hierarchyid", "TEXT"); ("geometry", "TEXT"); ("geography", "TEXT");
    ("rowversion", "BYTEA"); ("timestamp", "BYTEA");
    ("sysname", "VARCHAR(128)")
  ].

(** ** type-mapper.js: mapDataType *)

(** [maxLength === -1] *)
Definition isMax (maxLength : option Z) : bool :=
  match maxLength with Some n => n =? -1 | None => false end.

(** [maxLength && maxLength > 0] *)
Definition hasLength (maxLength : option Z) : bool :=
  match maxLength with Some n => negb (n =? 0) && (0 <? n) | None => false end.

(** [scale !== null && scale >= 0 && scale <= 6] *)
Definition scaleInRange (scale : option Z) : bool :=
  match scale with Some s => (0 <=? s) && (s <=? 6) | None => false end.

(** The declared length as emitted: [Math.floor(maxLength / 2)] for the wide
    type, [maxLength] otherwise. *)
Definition emittedLength (wide : bool) (maxLength : option Z) : Z :=
  match maxLength with
  | Some n => if wide then n / 2 else n
  | None => 0
  end.

Definition mapDataType (mssqlType : string)
    (maxLength precision scale : option Z) : M string :=
  let typeLower := trim (toLowerCase mssqlType) in
  let named t := String.eqb typeLower t in
  if (named "varchar" || named "nvarchar") && isMax maxLength then mret "TEXT"
  else if named "varbinary" && isMax maxLength then mret "BYTEA"
  else if named "decimal" || named "numeric" then
    match precision, scale with
    | Some p, Some s => mret ("NUMERIC(" +:+ pretty p +:+ "," +:+ pretty s +:+ ")")
    | Some p, None => mret ("NUMERIC(" +:+ pretty p +:+ ")")
    | None, _ => mret "NUMERIC"
    end
  else if named "char" || named "nchar" then
    if hasLength maxLength
    then mret ("CHAR(" +:+ pretty (emittedLength (named "nchar") maxLength) +:+ ")")
    else mret "CHAR(1)"
  else if named "varchar" || named "nvarchar" then
    if hasLength maxLength
    then mret ("VARCHAR(" +:+ pretty (emittedLength (named "nvarchar") maxLength) +:+ ")")
    else mret "VARCHAR"
  else if named "binary" || named "varbinary" then mret "BYTEA"
  else if named "float" then
    match precision with
    | Some p => if p <=? 24 then mret "REAL" else mret "DOUBLE PRECISION"
    | None => mret "DOUBLE PRECISION"
    end
  else if named "datetime2" then
    match scale with
    | Some s => if scaleInRange scale
                then mret ("TIMESTAMP(" +:+ pretty s +:+ ")") else mret "TIMESTAMP"
    | None => mret "TIMESTAMP"
    end
  else if named "time" then
    match scale with
    | Some s => if scaleInRange scale
                then mret ("TIME(" +:+ pretty s +:+ ")") else mret "TIME"
    | None => mret "TIME"
    end
  else if named "datetimeoffset" then
    match scale with
    | Some s => if scaleInRange scale
                then mret ("TIMESTAMP(" +:+ pretty s +:+ ") WITH TIME ZONE")
                else mret "TIMESTAMP WITH TIME ZONE"
    | None => mret "TIMESTAMP WITH TIME ZONE"
    end
  else
    match TYPE_MAPPINGS !! typeLower with
    | Some mappedType => mret mappedType (* a non-empty string, hence truthy *)
    | None =>
        console_warn ("Unknown MSSQL type: " +:+ mssqlType +:+ ", defaulting to TEXT");;
        mret "TEXT"
    end.


(** ** type-mapper.js: escapeIdentifier *)

Definition dquote : string := String (ascii_of_nat 34) EmptyString.

(** Every double-quote character of the identifier is doubled. *)
Fixpoint doubleQuotes (s : string) : string :=
  match s with
  | EmptyString => EmptyString
  | String c r =>
      if Ascii.eqb c (ascii_of_nat 34)
      then String c (String c (doubleQuotes r))
      else String c (doubleQuotes r)
  end.

Definition escapeIdentifier (identifier : string) : string :=
  dquote +:+ doubleQuotes identifier +:+ dquote.

(** ** type-mapper.js: convertDefaultValue *)

Definition isOpenParen (c : ascii) : bool := Ascii.eqb c "("%char.
Definition isCloseParen (c : ascii) : bool := Ascii.eqb c ")"%char.

(** [defaultValue.replace(/^\(+|\)+$/g, '')]: the run of opening parentheses
    at the start and the run of closing parentheses at the end are removed. *)
Definition stripParens (s : string) : string :=
  dropEnd isCloseParen (dropStart isOpenParen s).

Definition functionMappings : gmap string string :=
  list_to_map [
    ("getdate()", "CURRENT_TIMESTAMP");
    ("getutcdate()", "CURRENT_TIMESTAMP AT TIME ZONE 'UTC'");
    ("sysdatetime()", "CURRENT_TIMESTAMP");
    ("sysutcdatetime()", "CURRENT_TIMESTAMP AT TIME ZONE 'UTC'");
    ("sysdatetimeoffset()", "CURRENT_TIMESTAMP");
    ("newid()", "gen_random_uuid()");
    ("newsequentialid()", "gen_random_uuid()");
    ("user_name()", "CURRENT_USER");
    ("suser_sname()", "CURRENT_USER");
    ("host_name()", "inet_client_addr()")
  ].

(** The replacement of a leading N-apostrophe by an apostrophe. *)
Definition dropNationalPrefix (value : string) : string :=
  match value with
  | String "N" (String "'" r) => String "'" r
  | _ => value
  end.

(** [/^-?\d+(\.\d+)?$/.test(value)] *)
Definition isNumericLiteral (value : string) : bool :=
  let body := match value with String "-" r => r | _ => value end in
  let rest := dropStart isDigit body in
  negb (isEmpty (takeDigits body)) &&
  match rest with
  | EmptyString => true
  | String "." frac => digits1 frac
  | _ => false
  end.

Definition convertDefaultValue (defaultValue : option string) (dataType : string)
    : option string :=
  match defaultValue with
  | None => None
  | Some dv =>
      if isEmpty dv then None
      else
        let value := stripParens dv in
        let lowerValue := toLowerCase value in
        match functionMappings !! lowerValue with
        | Some mapped => Some mapped
        | None =>
            if startsWith "N'" value || startsWith "'" value
            then Some (dropNationalPrefix value)
            else if isNumericLiteral value then Some value
            else if String.eqb (toLowerCase dataType) "boolean"
                    || String.eqb (toLowerCase dataType) "bit"
            then
              if String.eqb value "1" || String.eqb (toLowerCase value) "true"
              then Some "TRUE"
              else if String.eqb value "0" || String.eqb (toLowerCase value) "false"
              then Some "FALSE"
              else Some value
            else Some value
        end
  end.

(** ** Migration script: the data model read from the source catalog *)

Record Table := mkTable {
  schema_name : string;
  table_name : string
}.

Record Column := mkColumn {
  name : string;
  dataType : string;
  maxLength : option Z;
  precision : option Z;
  scale : option Z;
  isNullable : bool;
  defaultValue : option string;
  isIdentity : bool
}.

Record KeyConstraint := mkKey {
  keyName : string;
  keyColumns : list string
}.

Record ForeignKey := mkForeignKey {
  constraintName : string;
  tableSchema : string;
  tableName : string;
  columns : list string;
  referencedSchema : string;
  referencedTable : string;
  referencedColumns : list string;
  deleteAction : string;
  updateAction : string
}.

Record Metadata := mkMetadata {
  metaColumns : list Column;
  metaPrimaryKey : option KeyConstraint;
  metaUniqueConstraints : list KeyConstraint
}.

(** [array.join(sep)] *)
Fixpoint join (sep : string) (l : list string) : string :=
  match l with
  | [] => EmptyString
  | [x] => x
  | x :: r => x +:+ sep +:+ join sep r
  end.

(** The template [schema.table]: key of the metadata map and of the resolver. *)
Definition fullName (schemaName tableName : string) : string :=
  schemaName +:+ "." +:+ tableName.

(** The template [schema_table]: the table's identifier in the target. *)
Definition fullTableName (schemaName tableName : string) : string :=
  schemaName +:+ "_" +:+ tableName.

Definition convertReferentialAction (action : string) : string :=
  if String.eqb action "NO_ACTION" then "NO ACTION"
  else if String.eqb action "CASCADE" then "CASCADE"
  else if String.eqb action "SET_NULL" then "SET NULL"
  else if String.eqb action "SET_DEFAULT" then "SET DEFAULT"
  else "NO ACTION".

Fixpoint mapM {A B : Type} (f : A → M B) (l : list A) : M (list B) :=
  match l with
  | [] => mret []
  | x :: r => y ← f x; ys ← mapM f r; mret (y :: ys)
  end.

Fixpoint forM_ {A : Type} (f : A → M unit) (l : list A) : M unit :=
  match l with
  | [] => mret tt
  | x :: r => f x;; forM_ f r
  end.

(** A loop whose body may not return: [None] once a body fails to. *)
Fixpoint forEach {A S : Type} (f : A → S → option S) (l : list A) (s : S)
    : option S :=
  match l with
  | [] => Some s
  | x :: r => match f x s with Some s' => forEach f r s' | None => None end
  end.

(** ** Migration script: sortTablesByDependencies *)

(** [set.add(x)] on a set that is later iterated: insertion order is kept. *)
Definition setAdd (x : string) (s : list string) : list string :=
  if decide (x ∈ s) then s else s ++ [x].

Definition tableKey (t : Table) : string := fullName (schema_name t) (table_name t).

Definition initDependencies (tables : list Table) : gmap string (list string) :=
  foldl (λ d t, <[tableKey t := []]> d) ∅ tables.

Definition addDependency (tableNames : gset string)
    (dependencies : gmap string (list string)) (fk : ForeignKey)
    : gmap string (list string) :=
  let source := fullName (tableSchema fk) (tableName fk) in
  let target := fullName (referencedSchema fk) (referencedTable fk) in
  if bool_decide (source ∈ tableNames) && bool_decide (target ∈ tableNames)
     && negb (String.eqb source target)
  then alter (setAdd target) source dependencies
  else dependencies.

Definition buildDependencies (tables : list Table) (foreignKeys : list ForeignKey)
    : gmap string (list string) :=
  let tableNames : gset string := list_to_set (tableKey <$> tables) in
  foldl (addDependency tableNames) (initDependencies tables) foreignKeys.

Record VisitState := mkVisit {
  sorted : list string;
  visited : gset string;
  visiting : gset string;
  world : World
}.

Definition circularWarning (tableName : string) : M unit :=
  logger_warning "DEPENDENCY"
    ("Circular dependency detected involving table " +:+ dquote +:+ tableName +:+ dquote);;
  updateStats incrWarnings.

(** The inner function [visit]. The recursion of the source is on the call
    stack; [fuel] bounds its depth, and [None] is a stack that ran out. *)
Fixpoint visit (fuel : nat) (dependencies : gmap string (list string))
    (tableName : string) (st : VisitState) : option VisitState :=
  match fuel with
  | O => None
  | S fuel' =>
      if decide (tableName ∈ visited st) then Some st
      else if decide (tableName ∈ visiting st) then
        Some (mkVisit (sorted st) (visited st) (visiting st)
                      (circularWarning tableName (world st)).2)
      else
        let deps := default [] (dependencies !! tableName) in
        match forEach (visit fuel' dependencies) deps
                (mkVisit (sorted st) (visited st)
                         ({[tableName]} ∪ visiting st) (world st)) with
        | None => None
        | Some st' =>
            Some (mkVisit (sorted st' ++ [tableName])
                          ({[tableName]} ∪ visited st')
                          (visiting st' ∖ {[tableName]})
                          (world st'))
        end
  end.

(** [name.split('.')] *)
Fixpoint split (sep : ascii) (s : string) : list string :=
  match s with
  | EmptyString => [EmptyString]
  | String c r =>
      if Ascii.eqb c sep then EmptyString :: split sep r
      else match split sep r with
           | p :: ps => String c p :: ps
           | [] => [String c EmptyString]
           end
  end.

(** [const [schema, table] = name.split('.')]: the first two pieces. Every
    key has a dot, so both exist (lemma [split_fullName_two]). *)
Definition mapBack (name : string) : Table :=
  let parts := split "." name in
  mkTable (default EmptyString (parts !! 0%nat)) (default EmptyString (parts !! 1%nat)).

Definition sortTablesByDependencies (tables : list Table)
    (foreignKeys : list ForeignKey) (w : World) : option (list Table * World) :=
  let dependencies := buildDependencies tables foreignKeys in
  match forEach (λ table, visit (S (length tables)) dependencies (tableKey table))
          tables (mkVisit [] ∅ ∅ w) with
  | None => None
  | Some st => Some (mapBack <$> sorted st, world st)
  end.

(** ** Migration script: the two connections *)

(** What the collaborators answer: the catalog of the source, whether the
    target accepts an operation, and how many rows a table load moves
    ([None]: the load failed). *)
Record Connections := mkConnections {
  getColumns : string → string → list Column;
  getPrimaryKey : string → string → option KeyConstraint;
  getUniqueConstraints : string → string → list KeyConstraint;
  pgQuery : TargetOp → bool;
  dataLoad : string → string → option nat
}.

(** ** Migration script: createTable *)

(** JavaScript truthiness of a nullable string *)
Definition truthy (s : option string) : bool :=
  match s with Some v => negb (isEmpty v) | None => false end.

Definition serialType (pgType : string) : string :=
  if String.eqb pgType "BIGINT" then "BIGSERIAL"
  else if String.eqb pgType "SMALLINT" then "SMALLSERIAL"
  else "SERIAL".

(** The body of the loop over the columns. *)
Definition columnDefinition (col : Column) : M ColumnDef :=
  pgType ← mapDataType (dataType col) (maxLength col) (precision col) (scale col);
  let finalType := if isIdentity col then serialType pgType else pgType in
  let pgDefault :=
    if truthy (defaultValue col) && negb (isIdentity col)
    then convertDefaultValue (defaultValue col) pgType else None in
  mret (mkColumnDef (escapeIdentifier (name col)) finalType
          (negb (isNullable col) && negb (isIdentity col))
          (if truthy pgDefault then pgDefault else None)).

Definition createTable (db : Connections) (schemaName tableName : string)
    (columns : list Column) (primaryKey : option KeyConstraint)
    (uniqueConstraints : list KeyConstraint) : M bool :=
  let fullTable := fullTableName schemaName tableName in
  let pgTableName := escapeIdentifier fullTable in
  columnDefs ← mapM columnDefinition columns;
  let pk := (λ k, (escapeIdentifier ("pk_" +:+ fullTable),
                   escapeIdentifier <$> keyColumns k)) <$> primaryKey in
  let uqs := (λ uc, (escapeIdentifier
                       ("uq_" +:+ fullTable +:+ "_" +:+ join "_" (keyColumns uc)),
                     escapeIdentifier <$> keyColumns uc)) <$> uniqueConstraints in
  let op := CreateTableIfNotExists pgTableName columnDefs pk uqs in
  issue op;;
  if pgQuery db op
  then updateStats (incrTablesCreated (bool_decide (is_Some primaryKey)));; mret true
  else updateStats incrErrors;; mret false.

(** ** Migration script: createForeignKeys *)

Definition alterTableOp (fk : ForeignKey) : TargetOp :=
  let sourceTable := fullTableName (tableSchema fk) (tableName fk) in
  let targetTable := fullTableName (referencedSchema fk) (referencedTable fk) in
  let fkName := escapeIdentifier
                  ("fk_" +:+ sourceTable +:+ "_" +:+ join "_" (columns fk)) in
  AlterTableAddConstraint (escapeIdentifier sourceTable) fkName
    (escapeIdentifier <$> columns fk)
    (escapeIdentifier targetTable)
    (escapeIdentifier <$> referencedColumns fk)
    (convertReferentialAction (deleteAction fk))
    (convertReferentialAction (updateAction fk)).

Definition createForeignKeys (db : Connections) (foreignKeys : list ForeignKey)
    : M unit :=
  forM_ (λ fk,
    let op := alterTableOp fk in
    issue op;;
    if pgQuery db op then updateStats incrForeignKeysCreated
    else updateStats incrErrors) foreignKeys.

(** ** Migration script: migrateTableData and resetSequences *)

Definition migrateTableData (db : Connections) (schemaName tableName : string)
    (columns : list Column) : M bool :=
  issue (MigrateTableData schemaName tableName);;
  match dataLoad db schemaName tableName with
  | Some rows => updateStats (addRowsMigrated rows);; mret true
  | None => updateStats incrErrors;; mret false
  end.

Definition resetSequences (db : Connections) (schemaName tableName : string)
    (columns : list Column) : M unit :=
  let fullTable := fullTableName schemaName tableName in
  forM_ (λ col,
    if isIdentity col then
      let op := ResetSequence fullTable (name col) in
      issue op;;
      if pgQuery db op then mret tt
      else
        logger_warning "SEQUENCE_RESET"
          ("Could not reset sequence for " +:+ dquote +:+ fullTable +:+ "."
             +:+ name col +:+ dquote);;
        updateStats incrWarnings
    else mret tt) columns.

(** ** Migration script: migrate *)

Inductive Outcome := Completed | Failed.

(** Phase 1: the loop over the tables found in the source, when the
    introspection calls return and [createTable] does not throw: see
    [plainCatalog] for the catalogs on which phase 1 throws of its own. *)
Fixpoint createTables (db : Connections) (tables : list Table)
    (tableMetadata : gmap string Metadata) : M (gmap string Metadata) :=
  match tables with
  | [] => mret tableMetadata
  | table :: rest =>
      let columns := getColumns db (schema_name table) (table_name table) in
      let primaryKey := getPrimaryKey db (schema_name table) (table_name table) in
      let uniqueConstraints :=
        getUniqueConstraints db (schema_name table) (table_name table) in
      createTable db (schema_name table) (table_name table)
        columns primaryKey uniqueConstraints;;
      createTables db rest
        (<[tableKey table := mkMetadata columns primaryKey uniqueConstraints]>
           tableMetadata)
  end.

(** Phase 3: the loop over the sorted tables. [false]: reading the columns of
    a metadata entry that does not exist threw. *)
Fixpoint migrateTables (db : Connections) (tableMetadata : gmap string Metadata)
    (sortedTables : list Table) : M bool :=
  match sortedTables with
  | [] => mret true
  | table :: rest =>
      match tableMetadata !! tableKey table with
      | None => mret false
      | Some metadata =>
          migrateTableData db (schema_name table) (table_name table)
            (metaColumns metadata);;
          resetSequences db (schema_name table) (table_name table)
            (metaColumns metadata);;
          migrateTables db tableMetadata rest
      end
  end.

(** [migrate], from the tables and foreign keys the source reports on to the
    summary; [Failed] is the catch block. *)
Definition migrate (db : Connections) (tables : list Table)
    (foreignKeys : list ForeignKey) : M Outcome :=
  updateStats (setTablesProcessed (length tables));;
  tableMetadata ← createTables db tables ∅;
  createForeignKeys db foreignKeys;;
  ((λ w,
    match sortTablesByDependencies tables foreignKeys w with
    | None => (Failed, (updateStats incrErrors w).2)
    | Some (sortedTables, w') =>
        (ok ← migrateTables db tableMetadata sortedTables;
         if ok : bool then mret Completed
         else updateStats incrErrors;; mret Failed) w'
    end) : M Outcome).

(** ** Vocabulary of the statements *)

(** The character [c] occurs in [s]. *)
Fixpoint contains (c : ascii) (s : string) : bool :=
  match s with
  | EmptyString => false
  | String a r => Ascii.eqb a c || contains c r
  end.

(** The last character of [s] satisfies [p]. *)
Fixpoint endsWith (p : ascii → bool) (s : string) : bool :=
  match s with
  | EmptyString => false
  | String c EmptyString => p c
  | String _ r => endsWith p r
  end.

(** The resolver keys of the two ends of a foreign key. *)
Definition fkSource (fk : ForeignKey) : string :=
  fullName (tableSchema fk) (tableName fk).
Definition fkTarget (fk : ForeignKey) : string :=
  fullName (referencedSchema fk) (referencedTable fk).

(** The piece of [s] before the first occurrence of [sep]. *)
Fixpoint upTo (sep : ascii) (s : string) : string :=
  match s with
  | EmptyString => EmptyString
  | String c r => if Ascii.eqb c sep then EmptyString else String c (upTo sep r)
  end.

(** Neither the schema nor the table name has a dot. *)
Definition dotFree (t : Table) : bool :=
  negb (contains "." (schema_name t)) && negb (contains "." (table_name t)).

(** The dependency graph as a relation: [x] depends on [y]. *)
Definition dependsOn (G : gmap string (list string)) (x y : string) : Prop :=
  y ∈ default [] (G !! x).

(** The state of the traversal is well formed: the output has no duplicate and
    is what [visited] holds, nothing is both in progress and done, and every
    emitted table comes after each of its dependencies, those apart from
    which it can be reached again. *)
Record ordered (G : gmap string (list string)) (U : gset string)
    (st : VisitState) : Prop := mkOrdered {
  ord_nodup : NoDup (sorted st);
  ord_visited : ∀ x, x ∈ visited st ↔ x ∈ sorted st;
  ord_disjoint : ∀ x, x ∈ visiting st → x ∉ visited st;
  ord_universe : ∀ x, x ∈ sorted st → x ∈ U;
  ord_deps : ∀ i x y, sorted st !! i = Some x → dependsOn G x y →
             ¬ rtc (dependsOn G) y x → ∃ j, (j < i)%nat ∧ sorted st !! j = Some y
}.

(** What a call of [visit], or a loop of such calls, leaves behind. *)
Definition extends (U : gset string) (G : gmap string (list string))
    (st st' : VisitState) : Prop :=
  ordered G U st' ∧ visiting st' = visiting st
  ∧ ∃ ext : list string, sorted st' = (sorted st ++ ext)%list.

(** The warnings of the resolver are all a traversal does to the world: the
    run log grows by [DEPENDENCY] warnings and the warning counter by their
    number. *)
Definition warned (w w' : World) : Prop :=
  console w' = console w ∧ target w' = target w
  ∧ ∃ entries : list LogEntry, logger w' = (logger w ++ entries)%list
      ∧ Forall (λ e, logLevel e = WARNING ∧ logCategory e = "DEPENDENCY") entries
      ∧ stats w' = Nat.iter (length entries) incrWarnings (stats w).



(** The source tables of the foreign-key statements among [ops], and the
    tables loaded by [ops], each in the order of [ops]. *)
Definition alterSources (ops : list TargetOp) : list string :=
  omap (λ op, match op with
              | AlterTableAddConstraint sourceTable _ _ _ _ _ _ => Some sourceTable
              | _ => None
              end) ops.

Definition loadedTables (ops : list TargetOp) : list Table :=
  omap (λ op, match op with
              | MigrateTableData schemaName tableName =>
                  Some (mkTable schemaName tableName)
              | _ => None
              end) ops.



(** A foreign key with one column, for the examples. *)
Definition fk (s t rs rt : string) : ForeignKey :=
  mkForeignKey ("FK_" +:+ t +:+ "_" +:+ rt) s t [rt +:+ "_id"] rs rt ["id"]
               "NO_ACTION" "NO_ACTION".

(** The chain scenario of the specification: A references B, B references C. *)
Definition chainTables : list Table :=
  [mkTable "dbo" "A"; mkTable "dbo" "B"; mkTable "dbo" "C"].
Definition chainForeignKeys : list ForeignKey :=
  [fk "dbo" "A" "dbo" "B"; fk "dbo" "B" "dbo" "C"].
Definition chainSorted : list Table :=
  [mkTable "dbo" "C"; mkTable "dbo" "B"; mkTable "dbo" "A"].

(** A catalog, in catalog order, with a table whose name has a dot: [audit]
    references [orders.archive] and [orders] references [vendors]. *)
Definition audit : Table := mkTable "dbo" "audit".
Definition orders : Table := mkTable "dbo" "orders".
Definition ordersArchive : Table := mkTable "dbo" "orders.archive".
Definition vendors : Table := mkTable "dbo" "vendors".
Definition catalogTables : list Table := [audit; orders; ordersArchive; vendors].
Definition catalogForeignKeys : list ForeignKey :=
  [fk "dbo" "audit" "dbo" "orders.archive"; fk "dbo" "orders" "dbo" "vendors"].

(** Connections that answer with one identity column and one column of an
    unknown type for every table, accept every operation and load three rows
    per table. *)
Definition acceptingConnections : Connections :=
  mkConnections
    (λ _ _, [mkColumn "id" "int" None (Some 10%Z) (Some 0%Z) false None true;
             mkColumn "shape" "cursor" None None None true None false])
    (λ _ _, None) (λ _ _, []) (λ _, true) (λ _ _, Some 3%nat).

(** * Further code of the repository *)

(** ** type-mapper.js: generateColumnDefinition *)

Definition generateColumnDefinition (column : Column) : M string :=
  pgType ← mapDataType (dataType column) (maxLength column) (precision column)
             (scale column);
  let notNull := if isNullable column then [] else ["NOT NULL"] in
  let default :=
    if truthy (defaultValue column)
    then match convertDefaultValue (defaultValue column) pgType with
         | Some pgDefault =>
             if isEmpty pgDefault then [] else ["DEFAULT " +:+ pgDefault]
         | None => []
         end
    else [] in
  mret (join " " ([escapeIdentifier (name column); pgType] ++ notNull ++ default)).

(** The text of a column definition of [createTable]: name, blank, type,
    null clause, default clause. *)
Definition renderColumnDef (d : ColumnDef) : string :=
  colName d +:+ " " +:+ colType d
  +:+ (if colNotNull d then " NOT NULL" else "")
  +:+ (match colDefault d with
       | Some pgDefault => " DEFAULT " +:+ pgDefault
       | None => ""
       end).

(** [dataType.toLowerCase() === 'boolean' || dataType.toLowerCase() === 'bit'] *)
Definition isBooleanType (dataType : string) : bool :=
  String.eqb (toLowerCase dataType) "boolean" || String.eqb (toLowerCase dataType) "bit".

(** The lower-case names that every object literal inherits: a lookup of
    one of them in a table of the source finds the inherited property, not
    an entry of the table.  The tables of this development hold the keys
    their literals declare, and the statements on every input leave these
    two names aside. *)
Definition inheritedKey (key : string) : bool :=
  String.eqb key "constructor" || String.eqb key "__proto__".

(** ** Further vocabulary for the resolver *)

(** The dependency graph has a directed cycle. *)
Definition cyclic (G : gmap string (list string)) : Prop :=
  ∃ x y, dependsOn G x y ∧ rtc (dependsOn G) y x.

(** Every table of the list comes after each of its dependencies. *)
Definition fullyOrdered (G : gmap string (list string)) (l : list string) : Prop :=
  ∀ (i : nat) x y, l !! i = Some x → dependsOn G x y →
    ∃ j : nat, (j < i)%nat ∧ l !! j = Some y.

(** [visited] holds what the output holds. *)
Definition inSync (st : VisitState) : Prop :=
  ∀ x, x ∈ visited st ↔ x ∈ sorted st.

(** From one traversal state to a later one: the output is only appended to
    and the world only warned. *)
Definition grows (a b : VisitState) : Prop :=
  (inSync a → inSync b)
  ∧ (∃ ext : list string, sorted b = (sorted a ++ ext)%list)
  ∧ warned (world a) (world b).

(** ** Migration script: getAllForeignKeys *)

(** A row of the foreign-key query: one row per column of a constraint. *)
Module ForeignKeyRow.
Record t := mk {
  constraintName : string;
  tableSchema : string;
  tableName : string;
  columnName : string;
  referencedSchema : string;
  referencedTable : string;
  referencedColumn : string;
  deleteAction : string;
  updateAction : string
}.
End ForeignKeyRow.

(** The object [foreignKeys = {}] the rows are grouped in: its own keys in
    the order they were added, which is the order of [Object.values], and
    the value of each.  Every key the function uses has two dots between its
    parts, so that it is neither an array index, which [Object.values] would
    list first, nor the name of a property that an empty object inherits. *)
Record Grouping := mkGrouping {
  ownKeys : list string;
  slots : gmap string ForeignKey
}.

Definition objectValues (obj : Grouping) : list ForeignKey :=
  omap (λ key, slots obj !! key) (ownKeys obj).

Definition rowKey (row : ForeignKeyRow.t) : string :=
  ForeignKeyRow.tableSchema row +:+ "." +:+ ForeignKeyRow.tableName row
    +:+ "." +:+ ForeignKeyRow.constraintName row.

Definition newForeignKey (row : ForeignKeyRow.t) : ForeignKey :=
  mkForeignKey (ForeignKeyRow.constraintName row) (ForeignKeyRow.tableSchema row)
    (ForeignKeyRow.tableName row) []
    (ForeignKeyRow.referencedSchema row) (ForeignKeyRow.referencedTable row) []
    (ForeignKeyRow.deleteAction row) (ForeignKeyRow.updateAction row).

Definition pushColumns (row : ForeignKeyRow.t) (fk : ForeignKey) : ForeignKey :=
  mkForeignKey (constraintName fk) (tableSchema fk) (tableName fk)
    (columns fk ++ [ForeignKeyRow.columnName row])
    (referencedSchema fk) (referencedTable fk)
    (referencedColumns fk ++ [ForeignKeyRow.referencedColumn row])
    (deleteAction fk) (updateAction fk).

(** The body of the loop over the record set. *)
Definition groupRow (obj : Grouping) (row : ForeignKeyRow.t) : Grouping :=
  let key := rowKey row in
  let obj1 :=
    match slots obj !! key with
    | Some _ => obj
    | None => mkGrouping (ownKeys obj ++ [key])
                         (<[key := newForeignKey row]> (slots obj))
    end in
  mkGrouping (ownKeys obj1) (alter (pushColumns row) key (slots obj1)).

(** [getAllForeignKeys], from the record set of its query on. *)
Definition getAllForeignKeys (recordset : list ForeignKeyRow.t) : list ForeignKey :=
  objectValues (foldl groupRow (mkGrouping [] ∅) recordset).

(** The key under which the rows of a foreign key were grouped. *)
Definition foreignKeyKey (fk : ForeignKey) : string :=
  tableSchema fk +:+ "." +:+ tableName fk +:+ "." +:+ constraintName fk.

(** The rows of the record set that belong to the key. *)
Definition rowsOf (key : string) (recordset : list ForeignKeyRow.t)
    : list ForeignKeyRow.t :=
  filter (λ row, rowKey row = key) recordset.

(** What the loop keeps of the rows read so far. *)
Record grouped (recordset : list ForeignKeyRow.t) (obj : Grouping) : Prop :=
  mkGrouped {
  grp_nodup : NoDup (ownKeys obj);
  grp_slots : ∀ key, key ∈ ownKeys obj ↔ is_Some (slots obj !! key);
  grp_keys : ∀ key, key ∈ ownKeys obj ↔ key ∈ rowKey <$> recordset;
  grp_value : ∀ key fk, slots obj !! key = Some fk →
      foreignKeyKey fk = key
      ∧ columns fk = ForeignKeyRow.columnName <$> rowsOf key recordset
      ∧ referencedColumns fk
        = ForeignKeyRow.referencedColumn <$> rowsOf key recordset
}.

(** A constraint of two columns between two of one, for the examples. *)
Definition fkRow (name t c rt rc : string) : ForeignKeyRow.t :=
  ForeignKeyRow.mk name "dbo" t c "dbo" rt rc "NO_ACTION" "CASCADE".
Definition catalogRows : list ForeignKeyRow.t :=
  [fkRow "FK_a" "orders" "vendor_id" "vendors" "id";
   fkRow "FK_b" "lines" "order_id" "orders" "id";
   fkRow "FK_b" "lines" "order_rev" "orders" "rev";
   fkRow "FK_c" "audit" "order_id" "orders" "id"].

(** ** Migration script: migrateTableData, batch by batch *)

(** The two connections as the load of one table meets them: the row count
    and the pages of the source ([None]: the query throws), and the answer of
    the target to an [INSERT], given the rows it then holds.  The target
    honours its transactions: what a batch inserted is kept at [COMMIT] and
    dropped at [ROLLBACK]; a refused [BEGIN], [COMMIT] or connection has the
    effect of a refused row. *)
Record Transfer (Row : Type) := mkTransfer {
  BATCH_SIZE : Z;
  getRowCount : option Z;
  selectBatch : Z → option (list Row);
  insertRow : list Row → Row → bool
}.
Arguments mkTransfer {Row}.
Arguments BATCH_SIZE {Row}.
Arguments getRowCount {Row}.
Arguments selectBatch {Row}.
Arguments insertRow {Row}.

(** How the loop over the batches ends: past the last row or at an empty
    page, or with an exception; with the rows the target table then holds. *)
Inductive BatchOutcome (Row : Type) :=
  | Finished (totalMigrated : nat) (table : list Row)
  | Thrown (table : list Row).
Arguments Finished {Row}.
Arguments Thrown {Row}.

Module Batches.
Section load.
Context {Row : Type} (io : Transfer Row).

(** The rows of one batch, inside its transaction. *)
Fixpoint insertRows (visible rows : list Row) : option (list Row) :=
  match rows with
  | [] => Some visible
  | row :: rest =>
      if insertRow io visible row then insertRows (visible ++ [row]) rest
      else None
  end.

(** [while (offset < totalRows)]; [None] when the fuel runs out. *)
Fixpoint batchLoop (fuel : nat) (totalRows offset : Z) (totalMigrated : nat)
    (table : list Row) : option (BatchOutcome Row) :=
  match fuel with
  | O => None
  | S fuel' =>
      if offset <? totalRows then
        match selectBatch io offset with
        | None => Some (Thrown table)
        | Some [] => Some (Finished totalMigrated table)
        | Some rows =>
            match insertRows table rows with
            | Some table' =>
                batchLoop fuel' totalRows (offset + BATCH_SIZE io)
                          (totalMigrated + length rows)%nat table'
            | None => Some (Thrown table)
            end
        end
      else Some (Finished totalMigrated table)
  end.

(** [migrateTableData] on the counters and the rows of the target table. *)
Definition migrateTableData (columns : list Column) (s : Stats)
    (table : list Row) : option (bool * Stats * list Row) :=
  match getRowCount io with
  | None => Some (false, incrErrors s, table)
  | Some totalRows =>
      if totalRows =? 0 then Some (true, s, table)
      else
        match columns with
        | [] => Some (false, incrErrors s, table)
        | _ :: _ =>
            match batchLoop (S (Z.to_nat totalRows)) totalRows 0 0%nat table with
            | Some (Finished totalMigrated table') =>
                Some (true, addRowsMigrated totalMigrated s, table')
            | Some (Thrown table') => Some (false, incrErrors s, table')
            | None => None
            end
        end
  end.

End load.
End Batches.

(** A source that does not change during the load: the page at an offset is
    the next [BATCH_SIZE] rows of [rows] from there. *)
Definition stableSource {Row : Type} (rows : list Row) (io : Transfer Row) : Prop :=
  getRowCount io = Some (Z.of_nat (length rows))
  ∧ ∀ offset : nat,
      selectBatch io (Z.of_nat offset)
      = Some (take (Z.to_nat (BATCH_SIZE io)) (drop offset rows)).

(** A source of five rows read two by two, and a target that refuses the
    row [4]. *)
Definition fiveRows (accept : nat → bool) : Transfer nat :=
  mkTransfer 2 (Some 5)
    (λ offset, Some (take 2 (drop (Z.to_nat offset) [1; 2; 3; 4; 5]%nat)))
    (λ _ row, accept row).
Definition aColumn : Column :=
  mkColumn "id" "int" None (Some 10) (Some 0) false None true.

(** ** Logger: the buffer and the log file *)

Definition newline : string := String (ascii_of_nat 10) EmptyString.

(** The logger as far as its file is concerned: what the log file holds and
    the entries not written yet. *)
Record MigrationLogger := mkLogger {
  logFile : string;
  buffer : list string
}.

(** [this.buffer.push(...)], of [log], [section] and [writeSummary], on the
    formatted entry. *)
Definition log (formattedMessage : string) (l : MigrationLogger) : MigrationLogger :=
  mkLogger (logFile l) (buffer l ++ [formattedMessage]).

Definition flush (l : MigrationLogger) : MigrationLogger :=
  match buffer l with
  | [] => l
  | _ :: _ => mkLogger (logFile l +:+ (join newline (buffer l) +:+ newline)) []
  end.

Definition close (l : MigrationLogger) : MigrationLogger := flush l.

(** What happens to a logger between its construction and [close]: an entry
    is logged, or the timer of [startAutoFlush] fires. *)
Inductive LoggerEvent :=
  | Logged (formattedMessage : string)
  | TimerFired.

Definition handle (l : MigrationLogger) (e : LoggerEvent) : MigrationLogger :=
  match e with
  | Logged formattedMessage => log formattedMessage l
  | TimerFired => flush l
  end.

Definition entriesOf (events : list LoggerEvent) : list string :=
  omap (λ e, match e with Logged m => Some m | TimerFired => None end) events.

(** The entries, each one followed by a line break. *)
Fixpoint written (entries : list string) : string :=
  match entries with
  | [] => EmptyString
  | entry :: rest => entry +:+ newline +:+ written rest
  end.

(** ** Further vocabulary: where the embedding is exact *)




(** What follows the first [sep] of [s]. *)
Fixpoint afterFirst (sep : ascii) (s : string) : string :=
  match s with
  | EmptyString => EmptyString
  | String c r => if Ascii.eqb c sep then r else afterFirst sep r
  end.




(** * Theorems *)

(** ** mapDataType *)

Ltac eval_mapDataType := cbv -[pretty Z.div String.append]; reflexivity.

(** C8. [mapDataType('varchar', -1, null, null)] is [TEXT] and
    [mapDataType('nvarchar', 20, null, null)] is [VARCHAR(10)]; in general the
    -1 sentinel on [varchar] and [nvarchar] gives [TEXT] whatever the precision
    and scale, and every positive declared length of the wide types [nvarchar]
    and [nchar] is emitted halved. No call touches the world. *)
Theorem mapDataType_max_sentinel_and_wide_halving (w : World) :
  mapDataType "varchar" (Some (-1)) None None w = ("TEXT", w)
  ∧ mapDataType "nvarchar" (Some 20) None None w = ("VARCHAR(10)", w)
  ∧ (∀ p s, mapDataType "varchar" (Some (-1)) p s w = ("TEXT", w)
          ∧ mapDataType "nvarchar" (Some (-1)) p s w = ("TEXT", w))
  ∧ (∀ (n : positive) p s,
        mapDataType "nvarchar" (Some (Z.pos n)) p s w
          = ("VARCHAR(" +:+ pretty (Z.pos n / 2) +:+ ")", w)
        ∧ mapDataType "nchar" (Some (Z.pos n)) p s w
          = ("CHAR(" +:+ pretty (Z.pos n / 2) +:+ ")", w)).
Proof.
  split; [vm_compute; reflexivity|].
  split; [vm_compute; reflexivity|].
  split; [intros p s; split; eval_mapDataType|].
  intros n p s; split; eval_mapDataType.
Qed.

Lemma append_char_inj (a b : string) (c : ascii) :
  a +:+ String c EmptyString = b +:+ String c EmptyString → a = b.
Proof.
  revert b. induction a as [|x a IH]; intros [|y b] E.
  - done.
  - injection E as _ E. destruct b; discriminate E.
  - injection E as _ E. destruct a; discriminate E.
  - injection E as -> E. by rewrite (IH b E).
Qed.

(** C9 (as amended). For the wide fixed-width type the halving is a floor
    division: [mapDataType('nchar', 1, null, null)] is [CHAR(0)]. A positive
    length is emitted as its floor half; every other length, absent, zero or
    negative, takes the fallback [CHAR(1)]. So [CHAR(1)] is returned exactly
    for the lengths that are not positive and for the lengths 2 and 3. *)
Theorem mapDataType_nchar_floor_halving (w : World) :
  mapDataType "nchar" (Some 1) None None w = ("CHAR(0)", w)
  ∧ (∀ maxLength p s,
       mapDataType "nchar" maxLength p s w
       = (match maxLength with
          | Some n =>
              if 0 <? n then "CHAR(" +:+ pretty (n / 2) +:+ ")" else "CHAR(1)"
          | None => "CHAR(1)"
          end, w))
  ∧ (∀ n p s,
       (mapDataType "nchar" (Some n) p s w).1 = "CHAR(1)"
       ↔ n ≤ 0 ∨ n = 2 ∨ n = 3).
Proof.
  assert (∀ maxLength p s,
       mapDataType "nchar" maxLength p s w
       = (match maxLength with
          | Some n =>
              if 0 <? n then "CHAR(" +:+ pretty (n / 2) +:+ ")" else "CHAR(1)"
          | None => "CHAR(1)"
          end, w)) as Hform.
  { intros [[|n|n]|] p s; eval_mapDataType. }
  split; [vm_compute; reflexivity|]. split; [exact Hform|].
  intros n p s. rewrite Hform. cbn [fst].
  destruct (Z.ltb_spec 0 n) as [Hpos|Hneg].
  - split.
    + intros E.
      change "CHAR(1)" with ("CHAR(" +:+ ("1" +:+ ")")) in E.
      apply String.app_inj, append_char_inj in E.
      change "1" with (pretty 1) in E. apply pretty_Z_inj in E.
      pose proof (Z.div_mod n 2) as Hdiv. pose proof (Z.mod_pos_bound n 2) as Hmod.
      lia.
    + intros [Hn | [-> | ->]]; [lia | reflexivity | reflexivity].
  - split; [intros _; left; lia | done].
Qed.

(** C9 as stated fails: a negative length also takes the fallback, and the
    positive lengths 2 and 3 give [CHAR(1)] through the halving. *)
Lemma mapDataType_nchar_fallback_not_only_zero_or_absent :
  (mapDataType "nchar" (Some (-1)) None None initialWorld).1 = "CHAR(1)"
  ∧ (mapDataType "nchar" (Some 2) None None initialWorld).1 = "CHAR(1)"
  ∧ (mapDataType "nchar" (Some 3) None None initialWorld).1 = "CHAR(1)".
Proof. vm_compute. auto. Qed.

Example mapDataType_nchar_small_lengths :
  (mapDataType "nchar" (Some 1) None None initialWorld).1 = "CHAR(0)"
  ∧ (mapDataType "NCHAR" (Some 3) None None initialWorld).1 = "CHAR(1)"
  ∧ (mapDataType "char" (Some 1) None None initialWorld).1 = "CHAR(1)"
  ∧ (mapDataType "nchar" (Some 10) None None initialWorld).1 = "CHAR(5)".
Proof. vm_compute. auto. Qed.

Example mapDataType_decimal_and_float :
  (mapDataType "decimal" None (Some 10) (Some 2) initialWorld).1 = "NUMERIC(10,2)"
  ∧ (mapDataType "decimal" None None None initialWorld).1 = "NUMERIC"
  ∧ (mapDataType "float" None (Some 24) None initialWorld).1 = "REAL"
  ∧ (mapDataType "float" None (Some 53) None initialWorld).1 = "DOUBLE PRECISION".
Proof. vm_compute. auto. Qed.


(** Whatever the type, a call changes neither the statistics accumulator nor
    the run log nor what was sent to the target. *)
Lemma mapDataType_effect (mssqlType : string) (maxLength precision scale : option Z)
    (w : World) :
  let w' := (mapDataType mssqlType maxLength precision scale w).2 in
  stats w' = stats w ∧ logger w' = logger w ∧ target w' = target w.
Proof.
  unfold mapDataType.
  repeat match goal with
  | |- context [if ?c then _ else _] => destruct c
  | |- context [match ?o with Some _ => _ | None => _ end] => destruct o
  end; done.
Qed.




(** ** convertDefaultValue *)

Lemma endsWith_dropEnd (p : ascii → bool) (s : string) :
  endsWith p (dropEnd p s) = false.
Proof.
  induction s as [|c r IH]; [reflexivity|].
  cbn [dropEnd]. destruct (p c) eqn:Hc; cbn [andb].
  - destruct (dropEnd p r) as [|c' r'] eqn:Hr; cbn [isEmpty]; [reflexivity|].
    exact IH.
  - destruct (dropEnd p r) as [|c' r'] eqn:Hr; [cbn; exact Hc | exact IH].
Qed.

Lemma isCloseParen_toLowerChar (c : ascii) :
  isCloseParen (toLowerChar c) = isCloseParen c.
Proof. destruct c as [[] [] [] [] [] [] [] []]; vm_compute; reflexivity. Qed.

Lemma endsWith_toLowerCase (s : string) :
  endsWith isCloseParen (toLowerCase s) = endsWith isCloseParen s.
Proof.
  induction s as [|c r IH]; [reflexivity|].
  cbn [toLowerCase endsWith]. destruct r as [|c' r'].
  - apply isCloseParen_toLowerChar.
  - exact IH.
Qed.

Lemma functionMappings_keys_end_with_paren (k v : string) :
  functionMappings !! k = Some v → endsWith isCloseParen k = true.
Proof.
  intros H. apply elem_of_list_to_map_2 in H.
  repeat (apply elem_of_cons in H as [H|H]; [injection H as -> ->; reflexivity|]).
  by apply elem_of_nil in H.
Qed.

(** No default expression reaches an entry of the function table: after the
    replacement the value never ends with a closing parenthesis, and every key
    of the table does. *)
Lemma functionMappings_never_matches (defaultValue : string) :
  functionMappings !! toLowerCase (stripParens defaultValue) = None.
Proof.
  destruct (functionMappings !! _) as [v|] eqn:H; [|reflexivity].
  apply functionMappings_keys_end_with_paren in H.
  rewrite endsWith_toLowerCase in H. unfold stripParens in H.
  by rewrite endsWith_dropEnd in H.
Qed.

Ltac eval_convertDefaultValue t :=
  unfold convertDefaultValue;
  destruct (String.eqb (toLowerCase t) "boolean" || String.eqb (toLowerCase t) "bit");
  vm_compute; reflexivity.

(** C4 (the code at the failing input). The replacement removes the call's own
    closing parenthesis together with the wrapping ones, so the wrapped call
    [(getdate())] becomes [getdate(], misses the function table and is passed
    through as it is, for every data type; the same happens to the other
    entries. *)
Theorem convertDefaultValue_wrapped_call_not_mapped (dataType : string) :
  functionMappings !! "getdate()" = Some "CURRENT_TIMESTAMP"
  ∧ stripParens "(getdate())" = "getdate("
  ∧ convertDefaultValue (Some "(getdate())") dataType = Some "getdate("
  ∧ convertDefaultValue (Some "(newid())") dataType = Some "newid("
  ∧ convertDefaultValue (Some "(suser_sname())") dataType = Some "suser_sname("
  ∧ convertDefaultValue (Some "(host_name())") dataType = Some "host_name("
  ∧ convertDefaultValue (Some "getdate()") dataType = Some "getdate(".
Proof.
  split; [vm_compute; reflexivity|]. split; [vm_compute; reflexivity|].
  repeat split; eval_convertDefaultValue dataType.
Qed.

(** C6 (the code at the failing input). The numeric-literal test comes before
    the boolean branch, so the defaults [((1))] and [((0))] of a boolean
    column leave as [1] and [0]; only the word forms reach the branch. *)
Theorem convertDefaultValue_boolean_digits_unchanged :
  convertDefaultValue (Some "((1))") "BOOLEAN" = Some "1"
  ∧ convertDefaultValue (Some "((0))") "BOOLEAN" = Some "0"
  ∧ convertDefaultValue (Some "1") "bit" = Some "1"
  ∧ convertDefaultValue (Some "(true)") "BOOLEAN" = Some "TRUE"
  ∧ convertDefaultValue (Some "(false)") "BOOLEAN" = Some "FALSE".
Proof. vm_compute. auto. Qed.

(** Whatever the data type, a default that is a numeric literal after the
    replacement is returned unchanged. *)
Lemma convertDefaultValue_numeric (defaultValue dataType : string) :
  isEmpty defaultValue = false →
  isNumericLiteral (stripParens defaultValue) = true →
  convertDefaultValue (Some defaultValue) dataType = Some (stripParens defaultValue).
Proof.
  intros Hne Hnum. unfold convertDefaultValue. rewrite Hne.
  rewrite functionMappings_never_matches.
  destruct (startsWith "N'" (stripParens defaultValue)
            || startsWith "'" (stripParens defaultValue)) eqn:Hs.
  - exfalso. unfold isNumericLiteral in Hnum.
    destruct (stripParens defaultValue) as [|c r]; [discriminate|].
    cbn [startsWith] in Hs. apply orb_prop in Hs as [Hs|Hs].
    + apply andb_prop in Hs as [Hc _]. apply Ascii.eqb_eq in Hc as <-.
      vm_compute in Hnum. discriminate.
    + rewrite andb_true_r in Hs. apply Ascii.eqb_eq in Hs as <-.
      vm_compute in Hnum. discriminate.
  - by rewrite Hnum.
Qed.

(** ** Identifier composition *)

Lemma separator_join_inj (sep : ascii) (s1 t1 s2 t2 : string) :
  contains sep s1 = false → contains sep s2 = false →
  s1 +:+ String sep t1 = s2 +:+ String sep t2 → s1 = s2 ∧ t1 = t2.
Proof.
  revert s2. induction s1 as [|a r1 IH]; intros [|b r2] H1 H2 E;
    cbn [contains String.append] in *.
  - by injection E.
  - injection E as <- _. rewrite Ascii.eqb_refl in H2. discriminate.
  - injection E as -> _. rewrite Ascii.eqb_refl in H1. discriminate.
  - injection E as -> E.
    apply orb_false_elim in H1 as [_ H1]. apply orb_false_elim in H2 as [_ H2].
    destruct (IH r2 H1 H2 E) as [-> ->]. done.
Qed.

(** C7 (as amended). The target identifier is schema, underscore, table; the
    underscore may occur in a source identifier, and the composition is
    injective on the pairs whose schema name has no underscore. *)
Theorem fullTableName_injective_without_underscore (s1 t1 s2 t2 : string) :
  contains "_" s1 = false → contains "_" s2 = false →
  fullTableName s1 t1 = fullTableName s2 t2 → s1 = s2 ∧ t1 = t2.
Proof. intros H1 H2 E. by apply (separator_join_inj "_"). Qed.

Lemma fullTableName_injective_without_underscore_witness :
  contains "_" "dbo" = false ∧ contains "_" "dbo" = false
  ∧ fullTableName "dbo" "order_items" = fullTableName "dbo" "order_items"
  ∧ "dbo" = "dbo" ∧ "order_items" = "order_items".
Proof.
  split; [reflexivity|]. split; [reflexivity|]. split; [reflexivity|].
  apply (fullTableName_injective_without_underscore "dbo" "order_items" "dbo" "order_items");
    reflexivity.
Defined.

(** C7 as stated fails: the separator occurs in the schema [a_b] and in the
    table [b_c], and two distinct pairs compose to one identifier. *)
Lemma fullTableName_collision :
  contains "_" "a_b" = true
  ∧ ("a_b", "c") ≠ ("a", "b_c")
  ∧ fullTableName "a_b" "c" = fullTableName "a" "b_c".
Proof. split; [reflexivity|]. split; [discriminate | reflexivity]. Qed.

(** ** The traversal of the dependency resolver *)

Local Close Scope Z_scope.

Lemma forEach_fmap {A B S : Type} (g : A → B) (f : B → S → option S)
    (l : list A) (s : S) :
  forEach (λ a, f (g a)) l s = forEach f (g <$> l) s.
Proof.
  revert s. induction l as [|a l IH]; intros s; [reflexivity|].
  cbn. destruct (f (g a) s); [apply IH | reflexivity].
Qed.

Section traversal.
Variable G : gmap string (list string).
Variable U : gset string.
Hypothesis closed : ∀ x y, dependsOn G x y → y ∈ U.

Local Abbreviation reaches := (rtc (dependsOn G)).

Lemma size_visiting_decreases (name : string) (V : gset string) :
  name ∈ U → name ∉ V → size (U ∖ ({[name]} ∪ V)) < size (U ∖ V).
Proof.
  intros HU HV. apply subset_size. split.
  - intros x. rewrite !elem_of_difference, elem_of_union. tauto.
  - intros Hsub. specialize (Hsub name).
    rewrite !elem_of_difference, elem_of_union, elem_of_singleton in Hsub. tauto.
Qed.

Lemma extends_refl (st : VisitState) : ordered G U st → extends U G st st.
Proof. intros H. split; [done|]. split; [done|]. exists []. by rewrite app_nil_r. Qed.

Lemma extends_trans (st1 st2 st3 : VisitState) :
  extends U G st1 st2 → extends U G st2 st3 → extends U G st1 st3.
Proof.
  intros (_ & Hv1 & e1 & He1) (Ho & Hv2 & e2 & He2).
  split; [done|]. split; [congruence|].
  exists (e1 ++ e2). rewrite He2, He1. by rewrite app_assoc.
Qed.

Lemma extends_visited (st st' : VisitState) (x : string) :
  ordered G U st → extends U G st st' → x ∈ visited st → x ∈ visited st'.
Proof.
  intros Ho (Ho' & _ & e & He) Hx.
  apply (ord_visited _ _ _ Ho'). rewrite He. apply elem_of_app. left.
  by apply (ord_visited _ _ _ Ho).
Qed.

(** The state in which the loop over the dependencies starts. *)
Lemma ordered_enter (name : string) (st : VisitState) :
  ordered G U st → name ∉ visited st →
  ordered G U (mkVisit (sorted st) (visited st) ({[name]} ∪ visiting st) (world st)).
Proof.
  intros [H1 H2 H3 H4 H5] Hn. split; cbn; try done.
  intros x [->%elem_of_singleton|Hx]%elem_of_union; [done | by apply H3].
Qed.

(** The state in which a table is emitted. *)
Lemma ordered_emit (name : string) (st : VisitState) :
  ordered G U st → name ∈ U → name ∈ visiting st →
  (∀ y, dependsOn G name y → ¬ reaches y name → y ∈ visited st) →
  ordered G U (mkVisit (sorted st ++ [name]) ({[name]} ∪ visited st)
                       (visiting st ∖ {[name]}) (world st)).
Proof.
  intros [H1 H2 H3 H4 H5] HU Hn Hdeps.
  assert (name ∉ sorted st) as Hfresh by (rewrite <- H2; by apply H3).
  split; cbn.
  - apply NoDup_app. split; [done|]. split; [|apply NoDup_singleton].
    intros x Hx ->%list_elem_of_singleton. done.
  - intros x. rewrite elem_of_union, elem_of_singleton, elem_of_app,
      list_elem_of_singleton, H2. tauto.
  - intros x [Hx Hne]%elem_of_difference.
    rewrite elem_of_union. intros [?|?]; [done | by apply (H3 x)].
  - intros x [? | ->%list_elem_of_singleton]%elem_of_app; [by apply H4 | done].
  - intros i x y Hi Hd Hr.
    destruct (decide (i < length (sorted st))) as [Hlt|Hge].
    + rewrite lookup_app_l in Hi by done.
      destruct (H5 i x y Hi Hd Hr) as (j & Hj & Hy).
      exists j. split; [done|]. rewrite lookup_app_l by lia. done.
    + rewrite lookup_app_r in Hi by lia.
      apply list_lookup_singleton_Some in Hi as [Hi <-].
      assert (y ∈ sorted st) as Hy by (rewrite <- H2; by apply Hdeps).
      apply list_elem_of_lookup in Hy as [j Hj].
      exists j. pose proof (lookup_lt_Some _ _ _ Hj).
      split; [lia|]. by rewrite lookup_app_l.
Qed.

Lemma visit_loop (fuel : nat)
    (IH : ∀ name st, name ∈ U → visiting st ⊆ U →
          size (U ∖ visiting st) < fuel → ordered G U st →
          (∀ v, v ∈ visiting st → reaches v name) →
          ∃ st', visit fuel G name st = Some st' ∧ extends U G st st'
                 ∧ (name ∈ visited st' ∨ name ∈ visiting st)) :
  ∀ ds st, (∀ y, y ∈ ds → y ∈ U) → visiting st ⊆ U →
    size (U ∖ visiting st) < fuel → ordered G U st →
    (∀ y v, y ∈ ds → v ∈ visiting st → reaches v y) →
    ∃ st', forEach (visit fuel G) ds st = Some st' ∧ extends U G st st'
           ∧ (∀ y, y ∈ ds → y ∈ visited st' ∨ y ∈ visiting st).
Proof.
  induction ds as [|d ds IHds]; intros st HdsU HV Hsz Ho Hstack.
  - exists st. split; [done|]. split; [by apply extends_refl|].
    intros y Hy. by apply elem_of_nil in Hy.
  - destruct (IH d st) as (st1 & E1 & Hext1 & Hd); try done.
    { apply HdsU. left. }
    { intros v Hv. apply Hstack; [left | done]. }
    cbn [forEach]. rewrite E1.
    pose proof Hext1 as (Ho1 & Hv1 & _).
    destruct (IHds st1) as (st2 & E2 & Hext2 & Hds).
    { intros y Hy. apply HdsU. by right. }
    { by rewrite Hv1. }
    { by rewrite Hv1. }
    { done. }
    { intros y v Hy Hv. rewrite Hv1 in Hv. apply Hstack; [by right | done]. }
    exists st2. split; [done|]. split; [by eapply extends_trans|].
    intros y [->|Hy]%elem_of_cons.
    + destruct Hd as [Hd|Hd]; [left | by right].
      by eapply extends_visited.
    + destruct (Hds y Hy) as [?|Hy']; [by left | right]. by rewrite <- Hv1.
Qed.

(** With fuel beyond the number of tables not in progress, a call of [visit]
    returns; it keeps the state well formed, leaves [visiting] as it found
    it, only appends to the output, and afterwards its table is done unless
    it was in progress. *)
Lemma visit_spec (fuel : nat) :
  ∀ name st, name ∈ U → visiting st ⊆ U →
    size (U ∖ visiting st) < fuel → ordered G U st →
    (∀ v, v ∈ visiting st → reaches v name) →
    ∃ st', visit fuel G name st = Some st' ∧ extends U G st st'
           ∧ (name ∈ visited st' ∨ name ∈ visiting st).
Proof.
  induction fuel as [|fuel IH]; intros name st HU HV Hsz Ho Hstack; [lia|].
  cbn [visit].
  destruct (decide (name ∈ visited st)) as [Hvis|Hnvis].
  { exists st. split; [done|]. split; [by apply extends_refl | by left]. }
  destruct (decide (name ∈ visiting st)) as [Hing|Hning].
  { eexists. split; [done|]. split; [|by right].
    split; [|split; [done | exists []; by rewrite app_nil_r]].
    destruct Ho; by split. }
  destruct (visit_loop fuel IH (default [] (G !! name))
              (mkVisit (sorted st) (visited st) ({[name]} ∪ visiting st) (world st)))
    as (st2 & E2 & (Ho2 & Hv2 & ext & Hext) & Hdeps); cbn [visiting sorted].
  { intros y Hy. by apply (closed name). }
  { apply union_subseteq. split; [by apply singleton_subseteq_l | done]. }
  { pose proof (size_visiting_decreases name (visiting st) HU Hning). lia. }
  { by apply ordered_enter. }
  { intros y v Hy [->%elem_of_singleton|Hv]%elem_of_union.
    - by apply rtc_once.
    - eapply rtc_r; [by apply Hstack | done]. }
  rewrite E2. eexists. split; [done|]. cbn [visiting sorted] in *.
  assert (name ∈ visiting st2) as Hin2
    by (rewrite Hv2; apply elem_of_union; left; by apply elem_of_singleton).
  split; [split; [|split]|].
  - apply ordered_emit; try done.
    intros y Hy Hr. destruct (Hdeps y Hy) as [?|Hy']; [done|].
    exfalso. apply Hr.
    apply elem_of_union in Hy' as [->%elem_of_singleton|Hy']; [done|].
    by apply Hstack.
  - cbn. rewrite Hv2. apply set_eq. intros x.
    rewrite elem_of_difference, elem_of_union, elem_of_singleton.
    split; [tauto|]. intros Hx. split; [by right|]. by intros ->.
  - exists (ext ++ [name]). cbn. rewrite Hext. by rewrite app_assoc.
  - left. cbn. apply elem_of_union. left. by apply elem_of_singleton.
Qed.
End traversal.

(** ** The dependency graph built from the foreign keys *)

Lemma setAdd_elem (y t : string) (s : list string) :
  y ∈ setAdd t s ↔ y = t ∨ y ∈ s.
Proof.
  unfold setAdd. destruct (decide (t ∈ s)) as [Hin|Hout].
  - split; [by right|]. by intros [->|?].
  - rewrite elem_of_app, list_elem_of_singleton. tauto.
Qed.

Lemma initDependencies_lookup (tables : list Table) (k : string) :
  initDependencies tables !! k
  = if decide (k ∈ tableKey <$> tables) then Some [] else None.
Proof.
  unfold initDependencies.
  assert (∀ g : gmap string (list string),
    foldl (λ d t, <[tableKey t := []]> d) g tables !! k
    = if decide (k ∈ tableKey <$> tables) then Some [] else g !! k) as Hgen.
  { induction tables as [|t tables IH]; intros g; cbn [foldl fmap list_fmap].
    - destruct (decide _) as [Hin|]; [by apply elem_of_nil in Hin | done].
    - rewrite IH. destruct (decide (k ∈ tableKey <$> tables)) as [Hin|Hout].
      + rewrite decide_True; [done | by right].
      + destruct (decide (k = tableKey t)) as [->|Hne].
        * rewrite lookup_insert_eq. rewrite decide_True; [done | left].
        * rewrite lookup_insert_ne by done.
          rewrite decide_False; [done|]. by intros [?|?]%elem_of_cons. }
  rewrite Hgen. by rewrite lookup_empty.
Qed.

Lemma dependsOn_addDependency (U : gset string) (g : gmap string (list string))
    (fk : ForeignKey) (x y : string) :
  dependsOn (addDependency U g fk) x y
  ↔ dependsOn g x y
    ∨ (is_Some (g !! x) ∧ fkSource fk = x ∧ fkTarget fk = y
       ∧ x ∈ U ∧ y ∈ U ∧ x ≠ y).
Proof.
  unfold addDependency, dependsOn. fold (fkSource fk) (fkTarget fk).
  destruct (bool_decide_reflect (fkSource fk ∈ U)) as [Hs|Hs]; cbn [andb];
    [|split; [by left | intros [?|(_ & <- & _ & ? & _)]; done]].
  destruct (bool_decide_reflect (fkTarget fk ∈ U)) as [Ht|Ht]; cbn [andb];
    [|split; [by left | intros [?|(_ & _ & <- & _ & ? & _)]; done]].
  destruct (String.eqb_spec (fkSource fk) (fkTarget fk)) as [E|E]; cbn [negb].
  { split; [by left | intros [?|(_ & <- & <- & _ & _ & ?)]; done]. }
  rewrite lookup_alter. destruct (decide (fkSource fk = x)) as [<-|Hne].
  - destruct (g !! fkSource fk) as [deps|] eqn:Hg; cbn.
    + rewrite setAdd_elem. split.
      * intros [->|?]; [right | by left]. by repeat split; try done; eexists.
      * intros [?|(_ & _ & <- & _)]; [by right | by left].
    + split; [by left|]. intros [?|([? ?] & _)]; done.
  - split; [by left | intros [?|(_ & ? & _)]; done].
Qed.

Lemma is_Some_addDependency (U : gset string) (g : gmap string (list string))
    (fk : ForeignKey) (x : string) :
  is_Some (addDependency U g fk !! x) ↔ is_Some (g !! x).
Proof.
  unfold addDependency. destruct (_ && _ && _); [|done].
  rewrite lookup_alter. destruct (decide _) as [<-|]; [|done].
  by rewrite fmap_is_Some.
Qed.

Lemma dependsOn_fold (U : gset string) (fks : list ForeignKey) :
  ∀ (g : gmap string (list string)) (x y : string),
    dependsOn (foldl (addDependency U) g fks) x y
    ↔ dependsOn g x y
      ∨ (is_Some (g !! x)
         ∧ ∃ fk, fk ∈ fks ∧ fkSource fk = x ∧ fkTarget fk = y
                 ∧ x ∈ U ∧ y ∈ U ∧ x ≠ y).
Proof.
  induction fks as [|fk fks IH]; intros g x y; cbn [foldl].
  - split; [by left|]. intros [?|(_ & fk & Hfk & _)]; [done|].
    by apply elem_of_nil in Hfk.
  - rewrite IH, dependsOn_addDependency, is_Some_addDependency. split.
    + intros [[?|(? & ? & ? & ?)]|(? & fk' & ? & ?)].
      * by left.
      * right. split; [done|]. exists fk. split; [left | done].
      * right. split; [done|]. exists fk'. split; [by right | done].
    + intros [?|(? & fk' & [->|?]%elem_of_cons & ?)].
      * by left; left.
      * left; right. done.
      * right. split; [done|]. by exists fk'.
Qed.

(** The dependency graph has an edge from [x] to [y] exactly when some foreign
    key leads from [x] to [y], both are tables of the migrated set, and they
    differ. *)
Lemma dependsOn_buildDependencies (tables : list Table)
    (foreignKeys : list ForeignKey) (x y : string) :
  dependsOn (buildDependencies tables foreignKeys) x y
  ↔ ∃ fk, fk ∈ foreignKeys ∧ fkSource fk = x ∧ fkTarget fk = y
          ∧ x ∈ tableKey <$> tables ∧ y ∈ tableKey <$> tables ∧ x ≠ y.
Proof.
  unfold buildDependencies. rewrite dependsOn_fold. split.
  - intros [Hd|(_ & fk & ? & ? & ? & ?%elem_of_list_to_set & ?%elem_of_list_to_set & ?)].
    + unfold dependsOn in Hd. rewrite initDependencies_lookup in Hd.
      destruct (decide _); cbn in Hd; by apply elem_of_nil in Hd.
    + by exists fk.
  - intros (fk & ? & ? & ? & Hx & Hy & ?). right. split.
    + rewrite initDependencies_lookup. by rewrite decide_True.
    + exists fk. by rewrite !elem_of_list_to_set.
Qed.

Lemma size_list_to_set_le (l : list string) :
  size (list_to_set l : gset string) ≤ length l.
Proof.
  induction l as [|x l IH]; cbn [list_to_set length].
  - by rewrite size_empty.
  - rewrite size_union_alt, size_singleton.
    pose proof (subseteq_size (list_to_set l ∖ {[x]}) (list_to_set l : gset string)) as Hle.
    assert (list_to_set l ∖ {[x]} ⊆ (list_to_set l : gset string)) as Hsub
      by (intros z [? _]%elem_of_difference; done).
    specialize (Hle Hsub). lia.
Qed.

(** The loop over the tables returns, with every key emitted once and in
    dependency order. *)
Lemma resolver_keys (tables : list Table) (foreignKeys : list ForeignKey) (w : World) :
  let G := buildDependencies tables foreignKeys in
  ∃ st, forEach (λ table, visit (S (length tables)) G (tableKey table))
          tables (mkVisit [] ∅ ∅ w) = Some st
        ∧ NoDup (sorted st)
        ∧ (∀ k, k ∈ sorted st ↔ k ∈ tableKey <$> tables)
        ∧ (∀ i x y, sorted st !! i = Some x → dependsOn G x y →
             ¬ rtc (dependsOn G) y x → ∃ j, j < i ∧ sorted st !! j = Some y).
Proof.
  intros G. set (U := list_to_set (tableKey <$> tables) : gset string).
  assert (∀ x y, dependsOn G x y → y ∈ U) as closed.
  { intros x y (fk & _ & _ & _ & _ & Hy & _)%dependsOn_buildDependencies.
    by apply elem_of_list_to_set. }
  rewrite forEach_fmap.
  destruct (visit_loop G U (S (length tables))
              (visit_spec G U closed (S (length tables)))
              (tableKey <$> tables) (mkVisit [] ∅ ∅ w))
    as (st & E & (Ho & Hv & _) & Hall); cbn [visiting sorted visited].
  - intros y Hy. by apply elem_of_list_to_set.
  - apply empty_subseteq.
  - pose proof (size_list_to_set_le (tableKey <$> tables)) as Hle.
    rewrite length_fmap in Hle.
    pose proof (subseteq_size (U ∖ ∅) U) as Hle'.
    assert (U ∖ ∅ ⊆ U) as Hsub by (intros z [? _]%elem_of_difference; done).
    specialize (Hle' Hsub). fold U in Hle. lia.
  - split; cbn; try done.
    + apply NoDup_nil_2.
    + intros x. split; [by intros ?%elem_of_empty | by intros ?%elem_of_nil].
    + intros x Hx. by apply elem_of_nil in Hx.
  - intros y v _ Hv. by apply elem_of_empty in Hv.
  - exists st. split; [done|]. destruct Ho as [H1 H2 H3 H4 H5].
    split; [done|]. split; [|done].
    intros k. split.
    + intros Hk. apply H4 in Hk. by apply elem_of_list_to_set in Hk.
    + intros Hk. apply H2. destruct (Hall k Hk) as [?|Hk']; [done|].
      cbn in Hk'. by apply elem_of_empty in Hk'.
Qed.

(** ** What the traversal does to the world *)

Lemma warned_refl (w : World) : warned w w.
Proof.
  split; [done|]. split; [done|]. exists []. by rewrite app_nil_r.
Qed.

Lemma warned_trans (w1 w2 w3 : World) : warned w1 w2 → warned w2 w3 → warned w1 w3.
Proof.
  intros (Hc1 & Ht1 & e1 & Hl1 & Hf1 & Hs1) (Hc2 & Ht2 & e2 & Hl2 & Hf2 & Hs2).
  split; [congruence|]. split; [congruence|]. exists (e1 ++ e2).
  split; [by rewrite Hl2, Hl1, app_assoc|].
  split; [by apply Forall_app|].
  rewrite Hs2, Hs1, List.length_app, (Nat.add_comm (length e1)).
  by rewrite Nat.iter_add.
Qed.

(** A cycle encounter: one warning in the log, one more on the counter. *)
Lemma warned_circularWarning (tableName : string) (w : World) :
  warned w (circularWarning tableName w).2
  ∧ warnings (stats (circularWarning tableName w).2) = S (warnings (stats w))
  ∧ length (logger (circularWarning tableName w).2) = S (length (logger w)).
Proof.
  split; [|split; [reflexivity|]].
  - split; [done|]. split; [done|]. eexists [_]. split; [done|].
    split; [|done]. by repeat constructor.
  - unfold circularWarning, logger_warning, updateStats, mbind, M_bind. cbn [snd logger].
    rewrite List.length_app. cbn. lia.
Qed.

Lemma forEach_related {A S : Type} (R : S → S → Prop) (f : A → S → option S) :
  (∀ s, R s s) → (∀ s1 s2 s3, R s1 s2 → R s2 s3 → R s1 s3) →
  ∀ l, (∀ a s s', a ∈ l → f a s = Some s' → R s s') →
  ∀ s s', forEach f l s = Some s' → R s s'.
Proof.
  intros Hrefl Htrans. induction l as [|a l IH]; intros Hf s s' E; cbn in E.
  - injection E as <-. apply Hrefl.
  - destruct (f a s) as [s1|] eqn:E1; [|discriminate].
    eapply Htrans; [eapply Hf; [left | done]|].
    apply IH; [|done]. intros b t t' Hb. apply Hf. by right.
Qed.

Lemma visit_warned (G : gmap string (list string)) (fuel : nat) :
  ∀ name st st', visit fuel G name st = Some st' → warned (world st) (world st').
Proof.
  induction fuel as [|fuel IH]; intros name st st' E; [discriminate|].
  cbn [visit] in E.
  destruct (decide (name ∈ visited st)); [injection E as <-; apply warned_refl|].
  destruct (decide (name ∈ visiting st)).
  { injection E as <-. apply warned_circularWarning. }
  destruct (forEach _ _ _) as [st2|] eqn:E2; [|discriminate].
  injection E as <-. cbn [world].
  apply (forEach_related (λ a b, warned (world a) (world b))) in E2; [done|..].
  - intros s. apply warned_refl.
  - intros s1 s2 s3. apply warned_trans.
  - intros a s s' _. apply IH.
Qed.

(** The branch of [visit] taken on a table that is in progress: the call
    returns at once, with the traversal state as it was and one warning. *)
Lemma visit_in_progress (G : gmap string (list string)) (fuel : nat)
    (name : string) (st : VisitState) :
  name ∉ visited st → name ∈ visiting st →
  ∃ w', visit (S fuel) G name st
        = Some (mkVisit (sorted st) (visited st) (visiting st) w')
      ∧ warnings (stats w') = S (warnings (stats (world st)))
      ∧ length (logger w') = S (length (logger (world st))).
Proof.
  intros Hv Hing. cbn [visit]. rewrite decide_False by done.
  rewrite decide_True by done. eexists. split; [done|].
  apply warned_circularWarning.
Qed.




(** ** The map back from keys to tables *)

Lemma split_upTo (sep : ascii) (s : string) :
  ∃ rest, split sep s = upTo sep s :: rest.
Proof.
  induction s as [|c r [rest IH]]; cbn [split upTo]; [by exists []|].
  destruct (Ascii.eqb c sep); [by eexists|].
  rewrite IH. by eexists.
Qed.

Lemma append_cons (c : ascii) (r s : string) :
  String c r +:+ s = String c (r +:+ s).
Proof. reflexivity. Qed.

Lemma split_join (sep : ascii) (s t : string) :
  contains sep s = false →
  split sep (s +:+ String sep t) = s :: split sep t.
Proof.
  induction s as [|c r IH]; intros H.
  - change (EmptyString +:+ String sep t) with (String sep t).
    cbn [split]. by rewrite Ascii.eqb_refl.
  - cbn [contains] in H. apply orb_false_elim in H as [Hc Hr].
    rewrite append_cons. cbn [split]. by rewrite Hc, (IH Hr).
Qed.

Lemma upTo_id (sep : ascii) (s : string) :
  contains sep s = false → upTo sep s = s.
Proof.
  induction s as [|c r IH]; intros H; cbn [upTo contains] in *; [done|].
  apply orb_false_elim in H as [Hc Hr]. by rewrite Hc, (IH Hr).
Qed.

(** A key made of a schema without dot and a table name is mapped back to that
    schema and to the table name cut at its first dot. *)
Lemma mapBack_fullName (schemaName tableName : string) :
  contains "." schemaName = false →
  mapBack (fullName schemaName tableName)
  = mkTable schemaName (upTo "." tableName).
Proof.
  intros H. unfold mapBack, fullName.
  change ("." +:+ tableName) with (String "." tableName).
  rewrite (split_join _ _ _ H).
  destruct (split_upTo "." tableName) as [rest ->]. done.
Qed.

(** Every key has its two pieces: the default of [mapBack] is never used. *)
Lemma split_fullName_two (schemaName tableName : string) :
  2 ≤ length (split "." (fullName schemaName tableName)).
Proof.
  unfold fullName. change ("." +:+ tableName) with (String "." tableName).
  induction schemaName as [|c r IH].
  - change (EmptyString +:+ String "." tableName) with (String "." tableName).
    cbn [split]. rewrite Ascii.eqb_refl.
    destruct (split_upTo "." tableName) as [rest ->]. cbn. lia.
  - rewrite append_cons. cbn [split]. destruct (Ascii.eqb c ".").
    + destruct (split_upTo "." (r +:+ String "." tableName)) as [rest ->]. cbn. lia.
    + destruct (split "." (r +:+ String "." tableName)) as [|p ps]; cbn in *; lia.
Qed.

Lemma upTo_append_sep (sep : ascii) (s t : string) :
  upTo sep (s +:+ String sep t) = upTo sep s.
Proof.
  induction s as [|c r IH].
  - change (EmptyString +:+ String sep t) with (String sep t).
    cbn [upTo]. by rewrite Ascii.eqb_refl.
  - rewrite append_cons. cbn [upTo]. destruct (Ascii.eqb c sep); [done|].
    by rewrite IH.
Qed.

Lemma split_dotted (sep : ascii) (s t : string) :
  contains sep s = true →
  ∃ rest, split sep (s +:+ String sep t)
          = upTo sep s :: upTo sep (afterFirst sep s) :: rest.
Proof.
  induction s as [|c r IH]; intros H; [discriminate H|].
  rewrite append_cons. cbn [split upTo afterFirst contains] in *.
  destruct (Ascii.eqb c sep) eqn:Hc.
  - destruct (split_upTo sep (r +:+ String sep t)) as [rest ->].
    rewrite upTo_append_sep. by eexists.
  - destruct (IH H) as [rest ->]. by eexists.
Qed.

(** A key made of a schema with a dot is mapped back to the two first pieces
    of the schema: nothing of the table name comes back. *)
Lemma mapBack_fullName_dotted (schemaName tableName : string) :
  contains "." schemaName = true →
  mapBack (fullName schemaName tableName)
  = mkTable (upTo "." schemaName) (upTo "." (afterFirst "." schemaName)).
Proof.
  intros H. unfold mapBack, fullName.
  change ("." +:+ tableName) with (String "." tableName).
  destruct (split_dotted "." schemaName tableName H) as [rest ->]. done.
Qed.

Lemma mapBack_tableKey (t : Table) : dotFree t = true → mapBack (tableKey t) = t.
Proof.
  destruct t as [s n]. unfold dotFree, tableKey. cbn [schema_name table_name].
  intros [Hs Hn]%andb_prop. apply negb_true_iff in Hs, Hn.
  rewrite mapBack_fullName by done. by rewrite upTo_id.
Qed.

Lemma tableKey_inj (t1 t2 : Table) :
  dotFree t1 = true → dotFree t2 = true → tableKey t1 = tableKey t2 → t1 = t2.
Proof.
  intros H1 H2 E. rewrite <- (mapBack_tableKey t1 H1), <- (mapBack_tableKey t2 H2).
  by rewrite E.
Qed.

(** ** sortTablesByDependencies *)

(** On every input the resolver returns. Its internal order holds the key of
    every table once, the key of the referenced table of a foreign key that
    lies on no cycle sits before the key of the referencing table, and the
    world is changed by cycle warnings only. What is returned is that order
    mapped back to table objects. *)
Theorem sortTablesByDependencies_keys (tables : list Table)
    (foreignKeys : list ForeignKey) (w : World) :
  ∃ keys w',
    sortTablesByDependencies tables foreignKeys w = Some (mapBack <$> keys, w')
    ∧ NoDup keys
    ∧ (∀ k, k ∈ keys ↔ k ∈ tableKey <$> tables)
    ∧ (∀ fk, fk ∈ foreignKeys →
         fkSource fk ∈ tableKey <$> tables → fkTarget fk ∈ tableKey <$> tables →
         fkSource fk ≠ fkTarget fk →
         ¬ rtc (dependsOn (buildDependencies tables foreignKeys))
               (fkTarget fk) (fkSource fk) →
         ∃ i j, i < j ∧ keys !! i = Some (fkTarget fk)
                ∧ keys !! j = Some (fkSource fk))
    ∧ warned w w'.
Proof.
  destruct (resolver_keys tables foreignKeys w) as (st & E & Hnd & Hmem & Hord).
  exists (sorted st), (world st). unfold sortTablesByDependencies. rewrite E.
  split; [done|]. split; [done|]. split; [done|]. split.
  - intros fk Hfk Hs Ht Hne Hcyc.
    apply Hmem, list_elem_of_lookup in Hs as [j Hj].
    destruct (Hord j (fkSource fk) (fkTarget fk) Hj) as (i & Hij & Hi); [|done|].
    + apply dependsOn_buildDependencies. exists fk.
      repeat split; try done. by apply Hmem, list_elem_of_lookup; exists j.
    + by exists i, j.
  - apply (forEach_related (λ a b, warned (world a) (world b))) in E; [done|..].
    + intros s. apply warned_refl.
    + intros s1 s2 s3. apply warned_trans.
    + intros a s s' _. apply visit_warned.
Qed.

(** On a table set without dot in its names the returned list is the table set,
    each table once, and the returned position of a referenced table is before
    that of the referencing table for every foreign key that lies on no
    cycle. *)
Theorem sortTablesByDependencies_dotFree (tables : list Table)
    (foreignKeys : list ForeignKey) (w : World) :
  (∀ t, t ∈ tables → dotFree t = true) →
  ∃ out w',
    sortTablesByDependencies tables foreignKeys w = Some (out, w')
    ∧ NoDup out
    ∧ (∀ t, t ∈ out ↔ t ∈ tables)
    ∧ (∀ fk A B, fk ∈ foreignKeys → A ∈ tables → B ∈ tables →
         fkSource fk = tableKey A → fkTarget fk = tableKey B → A ≠ B →
         ¬ rtc (dependsOn (buildDependencies tables foreignKeys))
               (tableKey B) (tableKey A) →
         ∃ i j, i < j ∧ out !! i = Some B ∧ out !! j = Some A)
    ∧ warned w w'.
Proof.
  intros Hdot.
  destruct (sortTablesByDependencies_keys tables foreignKeys w)
    as (keys & w' & E & Hnd & Hmem & Hord & Hw).
  assert (∀ k, k ∈ keys → ∃ t, t ∈ tables ∧ k = tableKey t ∧ mapBack k = t) as Hback.
  { intros k (t & -> & Ht)%Hmem%list_elem_of_fmap. exists t.
    split; [done|]. split; [done|]. by apply mapBack_tableKey, Hdot. }
  exists (mapBack <$> keys), w'. split; [done|]. split; [|split; [|split; [|done]]].
  - apply NoDup_fmap_2_strong; [|done]. intros k1 k2 H1 H2 Heq.
    destruct (Hback k1 H1) as (t1 & _ & -> & E1), (Hback k2 H2) as (t2 & _ & -> & E2).
    congruence.
  - intros t. rewrite list_elem_of_fmap. split.
    + intros (k & -> & Hk). destruct (Hback k Hk) as (t & Ht & _ & ->). done.
    + intros Ht. exists (tableKey t). split.
      * symmetry. by apply mapBack_tableKey, Hdot.
      * apply Hmem, list_elem_of_fmap. by exists t.
  - intros fk A B Hfk HA HB Hs Ht Hne Hcyc.
    destruct (Hord fk Hfk) as (i & j & Hij & Hi & Hj).
    + rewrite Hs. apply list_elem_of_fmap. by exists A.
    + rewrite Ht. apply list_elem_of_fmap. by exists B.
    + rewrite Hs, Ht. intros Heq. apply Hne.
      by apply tableKey_inj; [apply Hdot | apply Hdot |].
    + by rewrite Hs, Ht.
    + exists i, j. split; [done|]. rewrite !list_lookup_fmap, Hi, Hj, Hs, Ht. cbn.
      by rewrite !mapBack_tableKey by (by apply Hdot).
Qed.

(** C10 (as amended). The returned objects are the keys of the internal
    order split at the dot, of which the two first pieces are kept. On a
    table set without dot in its names they are the input tables, each once:
    the round trip is faithful. A table whose schema has no dot is returned
    with its table name cut at the first dot, so a name with a dot comes back
    truncated. A table whose schema has a dot is returned as the two first
    pieces of the schema, without anything of its table name. *)
Theorem sortTablesByDependencies_map_back (tables : list Table)
    (foreignKeys : list ForeignKey) (w : World) :
  ∃ keys w',
    sortTablesByDependencies tables foreignKeys w = Some (mapBack <$> keys, w')
    ∧ (∀ k, k ∈ keys ↔ k ∈ tableKey <$> tables)
    ∧ ((∀ t, t ∈ tables → dotFree t = true) →
         NoDup (mapBack <$> keys)
         ∧ (∀ t, t ∈ mapBack <$> keys ↔ t ∈ tables)
         ∧ (∀ i t, t ∈ tables → keys !! i = Some (tableKey t) →
              (mapBack <$> keys) !! i = Some t))
    ∧ (∀ schemaName tableName,
         mkTable schemaName tableName ∈ tables →
         contains "." schemaName = false →
         mkTable schemaName (upTo "." tableName) ∈ mapBack <$> keys)
    ∧ (∀ schemaName tableName,
         mkTable schemaName tableName ∈ tables →
         contains "." schemaName = true →
         mkTable (upTo "." schemaName) (upTo "." (afterFirst "." schemaName))
           ∈ mapBack <$> keys)
    ∧ (∀ i schemaName tableName,
         keys !! i = Some (fullName schemaName tableName) →
         (mapBack <$> keys) !! i
         = Some (if contains "." schemaName
                 then mkTable (upTo "." schemaName)
                              (upTo "." (afterFirst "." schemaName))
                 else mkTable schemaName (upTo "." tableName))).
Proof.
  destruct (sortTablesByDependencies_keys tables foreignKeys w)
    as (keys & w' & E & Hnd & Hmem & _ & _).
  exists keys, w'. split; [done|]. split; [done|]. split; [|split; [|split]].
  - intros Hdot.
    destruct (sortTablesByDependencies_dotFree tables foreignKeys w Hdot)
      as (out & w2 & E2 & Hnd2 & Hmem2 & _).
    rewrite E in E2. injection E2 as <- <-. split; [done|]. split; [done|].
    intros i t Ht Hi. rewrite list_lookup_fmap, Hi. cbn.
    by rewrite mapBack_tableKey by (by apply Hdot).
  - intros s n Hin Hs. apply list_elem_of_fmap. exists (fullName s n). split.
    + by rewrite mapBack_fullName.
    + apply Hmem, list_elem_of_fmap. by exists (mkTable s n).
  - intros s n Hin Hs. apply list_elem_of_fmap. exists (fullName s n). split.
    + by rewrite mapBack_fullName_dotted.
    + apply Hmem, list_elem_of_fmap. by exists (mkTable s n).
  - intros i s n Hi. rewrite list_lookup_fmap, Hi. cbn.
    destruct (contains "." s) eqn:Hs.
    + by rewrite mapBack_fullName_dotted.
    + by rewrite mapBack_fullName.
Qed.

Lemma sortTablesByDependencies_map_back_witness :
  (∃ keys w',
     sortTablesByDependencies [audit; vendors] [] initialWorld
       = Some (mapBack <$> keys, w')
     ∧ NoDup (mapBack <$> keys)
     ∧ (∀ t, t ∈ mapBack <$> keys ↔ t ∈ [audit; vendors]))
  ∧ (∃ keys w',
       sortTablesByDependencies [audit; ordersArchive] [] initialWorld
         = Some (mapBack <$> keys, w')
       ∧ mkTable "dbo" (upTo "." "orders.archive") ∈ mapBack <$> keys)
  ∧ (∃ keys w',
       sortTablesByDependencies [mkTable "my.schema" "t.x"] [] initialWorld
         = Some (mapBack <$> keys, w')
       ∧ mkTable (upTo "." "my.schema") (upTo "." (afterFirst "." "my.schema"))
           ∈ mapBack <$> keys).
Proof.
  split; [|split].
  - destruct (sortTablesByDependencies_map_back [audit; vendors] [] initialWorld)
      as (keys & w' & E & _ & Hdot & _).
    exists keys, w'. split; [exact E|].
    destruct Hdot as (Hnd & Hmem & _); [|by split].
    intros t Ht.
    apply elem_of_cons in Ht as [->|Ht]; [reflexivity|].
    apply elem_of_cons in Ht as [->|Ht]; [reflexivity|].
    by apply elem_of_nil in Ht.
  - destruct (sortTablesByDependencies_map_back [audit; ordersArchive] [] initialWorld)
      as (keys & w' & E & _ & _ & Hcut & _).
    exists keys, w'. split; [exact E|].
    apply (Hcut "dbo" "orders.archive"); [right; left | reflexivity].
  - destruct (sortTablesByDependencies_map_back [mkTable "my.schema" "t.x"] []
                initialWorld) as (keys & w' & E & _ & _ & _ & Hschema & _).
    exists keys, w'. split; [exact E|].
    apply (Hschema "my.schema" "t.x"); [left | reflexivity].
Defined.

(** C10 as stated fails: of the table [t.x] of the schema [my.schema] the
    resolver returns the schema [my] and the table [schema]; the table name
    cut at its first dot, [t], is nowhere in the output. *)
Lemma sortTablesByDependencies_dotted_schema_drops_table_name :
  sortTablesByDependencies [mkTable "my.schema" "t.x"] [] initialWorld
  = Some ([mkTable "my" "schema"], initialWorld)
  ∧ upTo "." "t.x" = "t"
  ∧ table_name (mkTable "my" "schema") ≠ upTo "." "t.x".
Proof. vm_compute. repeat split. discriminate. Qed.

Example sortTablesByDependencies_round_trip_example :
  sortTablesByDependencies
    [mkTable "dbo" "customers"; mkTable "sales" "orders"] [] initialWorld
  = Some ([mkTable "dbo" "customers"; mkTable "sales" "orders"], initialWorld).
Proof. vm_compute. reflexivity. Qed.

Example mapBack_truncates :
  mapBack (tableKey (mkTable "dbo" "order.items")) = mkTable "dbo" "order"
  ∧ mapBack (tableKey (mkTable "my.schema" "t")) = mkTable "my" "schema".
Proof. vm_compute. auto. Qed.

(** The two resolver scenarios of the specification: a chain, and a 2-cycle. *)
Example sortTablesByDependencies_chain :
  sortTablesByDependencies chainTables chainForeignKeys initialWorld
  = Some (chainSorted, initialWorld).
Proof. vm_compute. reflexivity. Qed.

Example sortTablesByDependencies_two_cycle :
  ∃ w', sortTablesByDependencies
          [mkTable "dbo" "A"; mkTable "dbo" "B"]
          [fk "dbo" "A" "dbo" "B"; fk "dbo" "B" "dbo" "A"] initialWorld
        = Some ([mkTable "dbo" "B"; mkTable "dbo" "A"], w')
      ∧ warnings (stats w') = 1 ∧ length (logger w') = 1.
Proof. eexists. vm_compute. auto. Qed.

Example sortTablesByDependencies_self_reference :
  sortTablesByDependencies [mkTable "dbo" "Employee"]
    [fk "dbo" "Employee" "dbo" "Employee"] initialWorld
  = Some ([mkTable "dbo" "Employee"], initialWorld).
Proof. vm_compute. reflexivity. Qed.

(** C1 (the code at the failing input). Four tables in catalog order, one of
    them named [orders.archive]; [orders] references [vendors] and the edge is
    on no cycle. The key of [orders.archive] is emitted first and is mapped
    back to the table [orders], so the returned list has [orders] at position
    0, before [vendors] at position 2, and has it twice. *)
Theorem sortTablesByDependencies_dotted_name_breaks_order :
  sortTablesByDependencies catalogTables catalogForeignKeys initialWorld
    = Some ([orders; audit; vendors; orders], initialWorld)
  ∧ dependsOn (buildDependencies catalogTables catalogForeignKeys)
              (tableKey orders) (tableKey vendors)
  ∧ ¬ rtc (dependsOn (buildDependencies catalogTables catalogForeignKeys))
          (tableKey vendors) (tableKey orders).
Proof.
  split; [vm_compute; reflexivity|]. split.
  - unfold dependsOn. vm_compute. left.
  - intros [E|(y & Hy & _)]%rtc_inv; [discriminate|].
    unfold dependsOn in Hy. vm_compute in Hy. by apply elem_of_nil in Hy.
Qed.

(** C2 (the code at the failing input). On the table set that holds
    [orders.archive] alone the resolver returns, but the table is not in what
    it returns: the entry of its key is the table [orders]. *)
Theorem sortTablesByDependencies_dotted_name_lost :
  sortTablesByDependencies [ordersArchive] [] initialWorld
    = Some ([orders], initialWorld)
  ∧ ordersArchive ∉ [orders].
Proof.
  split; [vm_compute; reflexivity|].
  intros [E|H]%elem_of_cons; [discriminate | by apply elem_of_nil in H].
Qed.

(** ** The operations of a run, phase by phase *)

Ltac run_M := unfold mbind, M_bind, mret, M_ret, issue, updateStats; cbn [fst snd target stats].

Lemma bind_eq {A B : Type} (m : M A) (f : A → M B) (w : World) :
  (m ≫= f) w = f (m w).1 (m w).2.
Proof. unfold mbind, M_bind. by destruct (m w). Qed.

Lemma omap_nil_app {A B : Type} (f : A → option B) (l1 l2 : list A) :
  omap f l1 = [] → omap f l2 = [] → omap f (l1 ++ l2) = [].
Proof. intros H1 H2. by rewrite omap_app, H1, H2. Qed.

Lemma columnDefinition_effect (col : Column) (w : World) :
  let w' := (columnDefinition col w).2 in
  stats w' = stats w ∧ logger w' = logger w ∧ target w' = target w.
Proof.
  unfold columnDefinition. run_M.
  pose proof (mapDataType_effect (dataType col) (maxLength col) (precision col)
                (scale col) w) as H.
  destruct (mapDataType _ _ _ _ w) as [pgType w1]. exact H.
Qed.

Lemma columnDefinitions_effect (columns : list Column) (w : World) :
  let w' := (mapM columnDefinition columns w).2 in
  stats w' = stats w ∧ logger w' = logger w ∧ target w' = target w.
Proof.
  revert w. induction columns as [|col columns IH]; intros w; [done|].
  cbn [mapM]. run_M.
  pose proof (columnDefinition_effect col w) as (H1 & H2 & H3).
  destruct (columnDefinition col w) as [d w1]. cbn [snd] in *.
  pose proof (IH w1) as (H4 & H5 & H6).
  destruct (mapM columnDefinition columns w1) as [ds w2]. cbn [snd] in *.
  split; [congruence|]. split; congruence.
Qed.

(** Creating a table sends one operation to the target and never touches the
    warning counter, whatever the types of the columns. *)
Lemma createTable_effect (db : Connections) (schemaName tableName : string)
    (columns : list Column) (primaryKey : option KeyConstraint)
    (uniqueConstraints : list KeyConstraint) (w : World) :
  let w' := (createTable db schemaName tableName columns primaryKey
               uniqueConstraints w).2 in
  warnings (stats w') = warnings (stats w)
  ∧ ∃ ops, target w' = target w ++ ops
           ∧ alterSources ops = [] ∧ loadedTables ops = [].
Proof.
  unfold createTable. run_M.
  pose proof (columnDefinitions_effect columns w) as (H1 & H2 & H3).
  destruct (mapM columnDefinition columns w) as [defs w1]. cbn [snd] in *.
  destruct (pgQuery db _); cbn; rewrite H1, H3; (split; [done|]); by eexists [_].
Qed.

Lemma createTables_effect (db : Connections) (tables : list Table) :
  ∀ (tableMetadata : gmap string Metadata) (w : World),
    let w' := (createTables db tables tableMetadata w).2 in
    warnings (stats w') = warnings (stats w)
    ∧ ∃ ops, target w' = target w ++ ops
             ∧ alterSources ops = [] ∧ loadedTables ops = [].
Proof.
  induction tables as [|t tables IH]; intros m w; cbn [createTables].
  - split; [done|]. exists []. by rewrite app_nil_r.
  - run_M.
    pose proof (createTable_effect db (schema_name t) (table_name t)
      (getColumns db (schema_name t) (table_name t))
      (getPrimaryKey db (schema_name t) (table_name t))
      (getUniqueConstraints db (schema_name t) (table_name t)) w)
      as (Hw & ops1 & Ht & Ha & Hl).
    destruct (createTable _ _ _ _ _ _ w) as [ok w1]. cbn [snd] in *.
    match goal with |- context [createTables db tables ?m' w1] =>
      pose proof (IH m' w1) as (Hw2 & ops2 & Ht2 & Ha2 & Hl2) end.
    split; [congruence|]. exists (ops1 ++ ops2).
    split; [by rewrite Ht2, Ht, app_assoc|].
    unfold alterSources, loadedTables in *. rewrite !omap_app.
    by rewrite Ha, Ha2, Hl, Hl2.
Qed.


(** The foreign-key statements go out one per foreign key, in the order of the
    foreign-key list. *)
Lemma createForeignKeys_effect (db : Connections) (foreignKeys : list ForeignKey) :
  ∀ w, target (createForeignKeys db foreignKeys w).2
       = target w ++ (alterTableOp <$> foreignKeys).
Proof.
  unfold createForeignKeys. set (body := λ k : ForeignKey, _).
  assert (∀ k w, target (body k w).2 = target w ++ [alterTableOp k]) as Hbody.
  { intros k w. unfold body. run_M. by destruct (pgQuery db _). }
  induction foreignKeys as [|k fks IH]; intros w; cbn [forM_ fmap list_fmap].
  - by rewrite app_nil_r.
  - rewrite bind_eq, IH, Hbody. by rewrite <- app_assoc.
Qed.

Lemma migrateTableData_effect (db : Connections) (schemaName tableName : string)
    (columns : list Column) (w : World) :
  target (migrateTableData db schemaName tableName columns w).2
  = target w ++ [MigrateTableData schemaName tableName].
Proof. unfold migrateTableData. run_M. by destruct (dataLoad db _ _). Qed.

Lemma resetSequences_effect (db : Connections) (schemaName tableName : string)
    (columns : list Column) :
  ∀ w, ∃ ops, target (resetSequences db schemaName tableName columns w).2
              = target w ++ ops
            ∧ alterSources ops = [] ∧ loadedTables ops = [].
Proof.
  unfold resetSequences. set (body := λ col : Column, _).
  assert (∀ col w, ∃ ops, target (body col w).2 = target w ++ ops
                          ∧ alterSources ops = [] ∧ loadedTables ops = []) as Hbody.
  { intros col w. unfold body.
    destruct (isIdentity col); [|exists []; by rewrite app_nil_r].
    run_M. destruct (pgQuery db _); by eexists [_]. }
  induction columns as [|col columns IH]; intros w; cbn [forM_].
  - exists []. by rewrite app_nil_r.
  - rewrite bind_eq.
    destruct (Hbody col w) as (ops1 & H1 & Ha1 & Hl1).
    destruct (IH (body col w).2) as (ops2 & H2 & Ha2 & Hl2).
    exists (ops1 ++ ops2). rewrite H2, H1, app_assoc. split; [done|].
    split; by apply omap_nil_app.
Qed.

(** The data load visits the tables in the order it is given. *)
Lemma migrateTables_effect (db : Connections) (tableMetadata : gmap string Metadata)
    (sortedTables : list Table) :
  ∀ w, ∃ ops,
    target (migrateTables db tableMetadata sortedTables w).2 = target w ++ ops
    ∧ alterSources ops = []
    ∧ loadedTables ops `prefix_of` sortedTables
    ∧ ((migrateTables db tableMetadata sortedTables w).1 = true →
       loadedTables ops = sortedTables).
Proof.
  induction sortedTables as [|t rest IH]; intros w; cbn [migrateTables].
  - exists []. rewrite app_nil_r. by repeat split.
  - destruct (tableMetadata !! tableKey t) as [metadata|].
    2:{ exists []. rewrite app_nil_r. repeat split; [apply prefix_nil | done]. }
    rewrite !bind_eq.
    set (w1 := (migrateTableData db _ _ _ w).2).
    set (w2 := (resetSequences db _ _ _ w1).2).
    destruct (IH w2) as (ops2 & H2 & Ha2 & Hp & Hok).
    destruct (resetSequences_effect db (schema_name t) (table_name t)
                (metaColumns metadata) w1) as (ops1 & H1 & Ha1 & Hl1).
    fold w2 in H1.
    pose proof (migrateTableData_effect db (schema_name t) (table_name t)
                  (metaColumns metadata) w) as H0. fold w1 in H0.
    exists (MigrateTableData (schema_name t) (table_name t) :: ops1 ++ ops2).
    split; [rewrite H2, H1, H0; by rewrite <- !app_assoc|].
    split; [cbn; by apply omap_nil_app|].
    assert (loadedTables (MigrateTableData (schema_name t) (table_name t)
                            :: ops1 ++ ops2) = t :: loadedTables ops2) as ->.
    { unfold loadedTables in *. cbn. rewrite omap_app, Hl1. by destruct t. }
    split; [by apply prefix_cons|]. intros Hb. by rewrite (Hok Hb).
Qed.

Lemma alterSources_alterTableOp (foreignKeys : list ForeignKey) :
  alterSources (alterTableOp <$> foreignKeys)
  = (λ k, escapeIdentifier (fullTableName (tableSchema k) (tableName k)))
      <$> foreignKeys.
Proof.
  induction foreignKeys as [|k fks IH]; [done|].
  unfold alterSources in *. cbn. by rewrite IH.
Qed.

Lemma loadedTables_alterTableOp (foreignKeys : list ForeignKey) :
  loadedTables (alterTableOp <$> foreignKeys) = [].
Proof. induction foreignKeys as [|k fks IH]; [done|]. exact IH. Qed.




(** A run over tables with a column of unknown type: the console has the
    line of [mapDataType] for each, the warning counter stays at zero. *)
Example migrate_unknown_type_not_counted :
  let run := migrate acceptingConnections [mkTable "dbo" "A"; mkTable "dbo" "B"] []
               initialWorld in
  run.1 = Completed
  ∧ console run.2 = ["Unknown MSSQL type: cursor, defaulting to TEXT";
                     "Unknown MSSQL type: cursor, defaulting to TEXT"]
  ∧ warnings (stats run.2) = 0.
Proof. vm_compute. auto. Qed.

(** * Further properties of the code *)

(** ** mapDataType on the whole of its domain *)

Lemma TYPE_MAPPINGS_values_not_empty (k v : string) :
  TYPE_MAPPINGS !! k = Some v → v ≠ "".
Proof.
  intros H. apply elem_of_list_to_map_2 in H.
  repeat (apply elem_of_cons in H as [H|H]; [injection H as -> ->; discriminate|]).
  by apply elem_of_nil in H.
Qed.

Ltac mapDataType_branches :=
  repeat match goal with
  | |- context [if ?c then _ else _] => destruct c
  | |- context [match ?o with Some _ => _ | None => _ end] => destruct o eqn:?
  end.

(** X1. On a type the lookup table has, in whatever letter case and with
    whatever blanks around it, [mapDataType] leaves the world exactly as it
    was: nothing is written to the console. *)
Theorem mapDataType_known_type_is_silent
    (mssqlType : string) (maxLength precision scale : option Z) (w : World) :
  is_Some (TYPE_MAPPINGS !! trim (toLowerCase mssqlType)) →
  (mapDataType mssqlType maxLength precision scale w).2 = w.
Proof.
  intros [v Hv]. unfold mapDataType. rewrite Hv.
  mapDataType_branches; reflexivity.
Qed.

Lemma mapDataType_known_type_is_silent_witness :
  is_Some (TYPE_MAPPINGS !! trim (toLowerCase "  UniqueIdentifier "))
  ∧ (mapDataType "  UniqueIdentifier " None None None initialWorld).2 = initialWorld.
Proof.
  split; [by eexists|].
  apply (mapDataType_known_type_is_silent "  UniqueIdentifier " None None None initialWorld).
  by eexists.
Defined.

(** Whatever the type name, length, precision and scale, the type string
    [mapDataType] returns is not empty. *)
Lemma mapDataType_result_not_empty
    (mssqlType : string) (maxLength precision scale : option Z) (w : World) :
  (mapDataType mssqlType maxLength precision scale w).1 ≠ "".
Proof.
  unfold mapDataType.
  mapDataType_branches; cbn [fst mret M_ret]; try discriminate.
  by eapply TYPE_MAPPINGS_values_not_empty.
Qed.

Lemma toLowerChar_space_and_idem (c : ascii) :
  isSpace (toLowerChar c) = isSpace c ∧ toLowerChar (toLowerChar c) = toLowerChar c.
Proof. destruct c as [[] [] [] [] [] [] [] []]; vm_compute; done. Qed.

Lemma toLowerCase_idem (s : string) : toLowerCase (toLowerCase s) = toLowerCase s.
Proof.
  induction s as [|c r IH]; [done|]. cbn [toLowerCase].
  by rewrite IH, (proj2 (toLowerChar_space_and_idem c)).
Qed.

Lemma isEmpty_toLowerCase (s : string) : isEmpty (toLowerCase s) = isEmpty s.
Proof. by destruct s. Qed.

Lemma toLowerCase_trim (s : string) : toLowerCase (trim s) = trim (toLowerCase s).
Proof.
  unfold trim.
  assert (∀ u, toLowerCase (dropEnd isSpace u) = dropEnd isSpace (toLowerCase u)) as Hend.
  { induction u as [|c r IH]; [done|]. cbn [dropEnd toLowerCase].
    rewrite <- IH, isEmpty_toLowerCase, (proj1 (toLowerChar_space_and_idem c)).
    by destruct (isSpace c && isEmpty (dropEnd isSpace r)). }
  assert (∀ u, toLowerCase (dropStart isSpace u) = dropStart isSpace (toLowerCase u)) as Hstart.
  { induction u as [|c r IH]; [done|]. cbn [dropStart toLowerCase].
    rewrite (proj1 (toLowerChar_space_and_idem c)). by destruct (isSpace c). }
  by rewrite Hend, Hstart.
Qed.

Lemma dropEnd_idem (p : ascii → bool) (s : string) :
  dropEnd p (dropEnd p s) = dropEnd p s.
Proof.
  induction s as [|c r IH]; [done|]. cbn [dropEnd].
  destruct (p c && isEmpty (dropEnd p r)) eqn:E; [done|].
  cbn [dropEnd]. by rewrite IH, E.
Qed.

Lemma dropStart_dropEnd (p : ascii → bool) (s : string) :
  dropStart p (dropEnd p (dropStart p s)) = dropEnd p (dropStart p s).
Proof.
  induction s as [|c r IH]; [done|]. cbn [dropStart].
  destruct (p c) eqn:Hc; [done|]. cbn [dropEnd]. rewrite Hc. cbn [andb dropStart].
  by rewrite Hc.
Qed.

Lemma trim_idem (s : string) : trim (trim s) = trim s.
Proof. unfold trim. by rewrite dropStart_dropEnd, dropEnd_idem. Qed.

(** X2. The type name is matched without regard to letter case and to blanks
    around it: the type returned for a name is the type returned for its
    lower-cased, trimmed form. *)
Theorem mapDataType_ignores_case_and_blanks
    (mssqlType : string) (maxLength precision scale : option Z) (w : World) :
  (mapDataType mssqlType maxLength precision scale w).1
  = (mapDataType (trim (toLowerCase mssqlType)) maxLength precision scale w).1.
Proof.
  unfold mapDataType.
  rewrite toLowerCase_trim, toLowerCase_idem, trim_idem.
  mapDataType_branches; reflexivity.
Qed.

Example mapDataType_mixed_case :
  (mapDataType "  NVarChar " (Some 20%Z) None None initialWorld).1 = "VARCHAR(10)"
  ∧ (mapDataType "DateTime2" None None (Some 3%Z) initialWorld).1 = "TIMESTAMP(3)"
  ∧ (mapDataType "datetime2" None None (Some 7%Z) initialWorld).1 = "TIMESTAMP".
Proof. vm_compute. auto. Qed.

(** ** Identity columns in createTable *)

Lemma mapDataType_integer_from_table
    (mssqlType : string) (maxLength precision scale : option Z) (w : World) (v : string) :
  v = "BIGINT" ∨ v = "SMALLINT" →
  (mapDataType mssqlType maxLength precision scale w).1 = v →
  TYPE_MAPPINGS !! trim (toLowerCase mssqlType) = Some v.
Proof.
  intros Hv. unfold mapDataType.
  mapDataType_branches; cbn [fst mret M_ret]; intros E;
    try (destruct Hv as [-> | ->]; discriminate E).
  by subst.
Qed.

Lemma TYPE_MAPPINGS_integer_keys (k : string) :
  (TYPE_MAPPINGS !! k = Some "BIGINT" → k = "bigint")
  ∧ (TYPE_MAPPINGS !! k = Some "SMALLINT" → k = "smallint" ∨ k = "tinyint").
Proof.
  split; intros H; apply elem_of_list_to_map_2 in H;
    repeat (apply elem_of_cons in H as [H|H];
            [first [discriminate H | injection H as ->; auto]|]);
    by apply elem_of_nil in H.
Qed.

(** X3. An identity column is defined without NOT NULL and without default,
    and its type is one of three: [BIGSERIAL] exactly for the source type
    [bigint], [SMALLSERIAL] exactly for [smallint] and [tinyint], and
    [SERIAL] for every other source type, whatever its declared size. *)
Theorem columnDefinition_identity (col : Column) (w : World) :
  isIdentity col = true →
  let typeLower := trim (toLowerCase (dataType col)) in
  let d := (columnDefinition col w).1 in
  colNotNull d = false ∧ colDefault d = None
  ∧ colType d
    = if String.eqb typeLower "bigint" then "BIGSERIAL"
      else if String.eqb typeLower "smallint" || String.eqb typeLower "tinyint"
           then "SMALLSERIAL" else "SERIAL".
Proof.
  intros Hid tl d. subst d. unfold columnDefinition. rewrite bind_eq.
  cbn [fst mret M_ret colNotNull colDefault colType]. rewrite Hid.
  rewrite !andb_false_r.
  split; [reflexivity|]. split; [reflexivity|].
  set (r := (mapDataType (dataType col) (maxLength col) (precision col) (scale col) w).1).
  pose proof (mapDataType_integer_from_table (dataType col) (maxLength col)
                (precision col) (scale col) w) as Hfrom. fold r tl in Hfrom.
  pose proof (TYPE_MAPPINGS_integer_keys tl) as [Hbig Hsmall].
  assert (tl = "bigint" → r = "BIGINT") as Hb.
  { intros E. subst r. unfold mapDataType. fold tl. rewrite E. reflexivity. }
  assert (tl = "smallint" ∨ tl = "tinyint" → r = "SMALLINT") as Hs.
  { intros [E|E]; subst r; unfold mapDataType; fold tl; rewrite E; reflexivity. }
  unfold serialType.
  destruct (String.eqb_spec tl "bigint") as [E|NE].
  { rewrite (Hb E). reflexivity. }
  destruct (String.eqb_spec r "BIGINT") as [E|_].
  { exfalso. apply NE, Hbig, Hfrom; auto. }
  destruct (String.eqb_spec tl "smallint") as [E|NE1].
  { rewrite (Hs (or_introl E)). reflexivity. }
  destruct (String.eqb_spec tl "tinyint") as [E|NE2].
  { rewrite (Hs (or_intror E)). reflexivity. }
  destruct (String.eqb_spec r "SMALLINT") as [E|_]; [|reflexivity].
  exfalso. destruct (Hsmall (Hfrom _ (or_intror eq_refl) E)); auto.
Qed.

Lemma columnDefinition_identity_witness :
  colType (columnDefinition
             (mkColumn "Id" "decimal" None (Some 18%Z) (Some 0%Z) false None true)
             initialWorld).1 = "SERIAL"
  ∧ colType (columnDefinition
               (mkColumn "Id" "TinyInt" None None None false (Some "((1))") true)
               initialWorld).1 = "SMALLSERIAL".
Proof.
  split.
  - apply (columnDefinition_identity
             (mkColumn "Id" "decimal" None (Some 18%Z) (Some 0%Z) false None true)
             initialWorld). reflexivity.
  - apply (columnDefinition_identity
             (mkColumn "Id" "TinyInt" None None None false (Some "((1))") true)
             initialWorld). reflexivity.
Defined.

(** ** convertDefaultValue on the whole of its domain *)

Lemma dropNationalPrefix_other (value : string) :
  startsWith "N'" value || startsWith "'" value = false →
  dropNationalPrefix value = value.
Proof.
  destruct value as [|a [|b r]]; intros H; unfold dropNationalPrefix.
  - done.
  - by destruct a as [[] [] [] [] [] [] [] []].
  - destruct (Ascii.eqb_spec a "N") as [->|Ha];
      [|by destruct a as [[] [] [] [] [] [] [] []]].
    destruct (Ascii.eqb_spec b "'") as [->|Hb];
      [|by destruct b as [[] [] [] [] [] [] [] []]].
    discriminate H.
Qed.

Lemma toLowerCase_word_not_literal (value word : string) :
  word = "true" ∨ word = "false" →
  toLowerCase value = word →
  startsWith "N'" value || startsWith "'" value = false
  ∧ isNumericLiteral value = false
  ∧ String.eqb value "1" = false ∧ String.eqb value "0" = false.
Proof.
  intros Hw E. destruct value as [|c r]; [destruct Hw; subst; discriminate|].
  cbn [toLowerCase] in E.
  assert (toLowerChar c = "t"%char ∨ toLowerChar c = "f"%char) as Hc
    by (destruct Hw; subst; injection E; auto).
  clear E Hw.
  assert (c = "t" ∨ c = "T" ∨ c = "f" ∨ c = "F")%char as Hc'.
  { destruct c as [[] [] [] [] [] [] [] []]; vm_compute in Hc;
      destruct Hc as [Hc|Hc]; try discriminate Hc; auto. }
  destruct Hc' as [-> | [-> | [-> | ->]]]; repeat split; try reflexivity;
    destruct r as [|b r']; reflexivity.
Qed.

Lemma convertDefaultValue_closed_form_aux (defaultValue dataType : string) :
  isEmpty defaultValue = false →
  convertDefaultValue (Some defaultValue) dataType
  = let value := stripParens defaultValue in
    if isBooleanType dataType && String.eqb (toLowerCase value) "true"
    then Some "TRUE"
    else if isBooleanType dataType && String.eqb (toLowerCase value) "false"
    then Some "FALSE"
    else Some (dropNationalPrefix value).
Proof.
  intros Hne. unfold convertDefaultValue, isBooleanType. rewrite Hne.
  rewrite functionMappings_never_matches. cbv zeta.
  set (value := stripParens defaultValue).
  set (boolean := String.eqb (toLowerCase dataType) "boolean"
                  || String.eqb (toLowerCase dataType) "bit").
  destruct (String.eqb_spec (toLowerCase value) "true") as [Et|Nt].
  { destruct (toLowerCase_word_not_literal value "true") as (H1 & H2 & H3 & H4);
      [auto | done |].
    rewrite H1, H2, ?H3, ?H4, (dropNationalPrefix_other _ H1).
    by destruct boolean. }
  destruct (String.eqb_spec (toLowerCase value) "false") as [Ef|Nf].
  { destruct (toLowerCase_word_not_literal value "false") as (H1 & H2 & H3 & H4);
      [auto | done |].
    rewrite H1, H2, ?H3, ?H4, (dropNationalPrefix_other _ H1).
    by destruct boolean. }
  rewrite !andb_false_r.
  destruct (startsWith "N'" value || startsWith "'" value) eqn:Hlit; [done|].
  rewrite (dropNationalPrefix_other _ Hlit).
  destruct (isNumericLiteral value) eqn:Hnum; [done|].
  destruct boolean; [|done].
  rewrite !orb_false_r.
  destruct (String.eqb_spec value "1") as [E1|_].
  { rewrite E1 in Hnum. discriminate Hnum. }
  destruct (String.eqb_spec value "0") as [E0|_]; [|done].
  rewrite E0 in Hnum. discriminate Hnum.
Qed.

(** X4. What [convertDefaultValue] returns on a non-empty default, in closed
    form: the source text with the parentheses at its two ends removed and a
    leading N before an apostrophe dropped; only for a boolean-typed column
    are the words true and false, in any letter case, replaced by [TRUE] and
    [FALSE]. No other translation takes place. (The two inherited names
    apart, see [inheritedKey].) *)
Theorem convertDefaultValue_closed_form (defaultValue dataType : string) :
  isEmpty defaultValue = false →
  inheritedKey (toLowerCase (stripParens defaultValue)) = false →
  convertDefaultValue (Some defaultValue) dataType
  = let value := stripParens defaultValue in
    if isBooleanType dataType && String.eqb (toLowerCase value) "true"
    then Some "TRUE"
    else if isBooleanType dataType && String.eqb (toLowerCase value) "false"
    then Some "FALSE"
    else Some (dropNationalPrefix value).
Proof.
  intros Hne _. exact (convertDefaultValue_closed_form_aux defaultValue dataType Hne).
Qed.

Lemma convertDefaultValue_closed_form_witness :
  convertDefaultValue (Some "(dateadd(day,(1),getdate()))") "TIMESTAMP"
  = Some "dateadd(day,(1),getdate("
  ∧ convertDefaultValue (Some "(N'n/a')") "VARCHAR(10)" = Some "'n/a'"
  ∧ convertDefaultValue (Some "(False)") "boolean" = Some "FALSE".
Proof.
  split; [|split].
  - apply (convertDefaultValue_closed_form "(dateadd(day,(1),getdate()))" "TIMESTAMP");
      reflexivity.
  - apply (convertDefaultValue_closed_form "(N'n/a')" "VARCHAR(10)"); reflexivity.
  - apply (convertDefaultValue_closed_form "(False)" "boolean"); reflexivity.
Defined.

Lemma startsWith_dropStart (p : ascii → bool) (s : string) :
  match dropStart p s with String c _ => p c = false | EmptyString => True end.
Proof.
  induction s as [|c r IH]; [done|]. cbn [dropStart].
  by destruct (p c) eqn:Hc.
Qed.

Lemma dropEnd_head (p : ascii → bool) (s : string) :
  match dropEnd p s with
  | String c _ => ∃ r, s = String c r
  | EmptyString => True
  end.
Proof.
  destruct s as [|c r]; [done|]. cbn [dropEnd].
  destruct (p c && isEmpty (dropEnd p r)); [done | by eexists].
Qed.

(** X5. The default that is returned never begins with an opening parenthesis
    and never ends with a closing one: a default that is a function call or a
    parenthesised expression does not come through whole. *)
Theorem convertDefaultValue_never_parenthesised
    (defaultValue dataType result : string) :
  inheritedKey (toLowerCase (stripParens defaultValue)) = false →
  convertDefaultValue (Some defaultValue) dataType = Some result →
  startsWith "(" result = false ∧ endsWith isCloseParen result = false.
Proof.
  intros _. rename defaultValue into dv.
  destruct (isEmpty dv) eqn:Hne; [by unfold convertDefaultValue; rewrite Hne|].
  rewrite (convertDefaultValue_closed_form_aux dv dataType Hne). cbv zeta.
  destruct (_ && _); [by intros [= <-]|].
  destruct (_ && _); [by intros [= <-]|].
  intros [= <-].
  pose proof (endsWith_dropEnd isCloseParen (dropStart isOpenParen dv)) as Hend.
  pose proof (startsWith_dropStart isOpenParen dv) as Hstart.
  pose proof (dropEnd_head isCloseParen (dropStart isOpenParen dv)) as Hhead.
  fold (stripParens dv) in Hend, Hhead.
  assert (startsWith "(" (stripParens dv) = false) as Hs.
  { destruct (stripParens dv) as [|c' r']; [done|].
    destruct Hhead as [r Hr]. rewrite Hr in Hstart.
    cbn [startsWith]. unfold isOpenParen in Hstart.
    by rewrite Ascii.eqb_sym, Hstart. }
  destruct (stripParens dv) as [|a [|b r]]; unfold dropNationalPrefix.
  - done.
  - by destruct a as [[] [] [] [] [] [] [] []].
  - destruct (Ascii.eqb_spec a "N") as [->|Ha];
      [|by destruct a as [[] [] [] [] [] [] [] []]].
    destruct (Ascii.eqb_spec b "'") as [->|Hb];
      [|by destruct b as [[] [] [] [] [] [] [] []]].
    split; [done|]. destruct r; [done | exact Hend].
Qed.

Lemma convertDefaultValue_never_parenthesised_witness :
  convertDefaultValue (Some "((1)+(2))") "INTEGER" = Some "1)+(2"
  ∧ startsWith "(" "1)+(2" = false ∧ endsWith isCloseParen "1)+(2" = false.
Proof.
  split; [reflexivity|].
  apply (convertDefaultValue_never_parenthesised "((1)+(2))" "INTEGER" "1)+(2");
    reflexivity.
Defined.

(** ** escapeIdentifier *)

Lemma doubleQuotes_closed_inj (s1 s2 : string) :
  doubleQuotes s1 +:+ dquote = doubleQuotes s2 +:+ dquote → s1 = s2.
Proof.
  revert s2. induction s1 as [|a r1 IH]; intros [|b r2]; cbn [doubleQuotes].
  - done.
  - destruct (Ascii.eqb_spec b (ascii_of_nat 34)) as [->|Hb]; intros E.
    + discriminate E.
    + injection E as E _. by destruct Hb.
  - destruct (Ascii.eqb_spec a (ascii_of_nat 34)) as [->|Ha]; intros E.
    + discriminate E.
    + injection E as E _. by destruct Ha.
  - destruct (Ascii.eqb_spec a (ascii_of_nat 34)) as [->|Ha],
             (Ascii.eqb_spec b (ascii_of_nat 34)) as [->|Hb]; intros E.
    + injection E as E. by rewrite (IH r2 E).
    + injection E as E _. by destruct Hb.
    + injection E as E _. by destruct Ha.
    + injection E as -> E. by rewrite (IH r2 E).
Qed.

(** X6. Escaping is injective: two identifiers with the same escaped form are
    the same identifier, quotes inside them included. *)
Theorem escapeIdentifier_injective (identifier1 identifier2 : string) :
  escapeIdentifier identifier1 = escapeIdentifier identifier2 →
  identifier1 = identifier2.
Proof.
  unfold escapeIdentifier, dquote. intros E.
  change (String (ascii_of_nat 34) "" +:+ ?x) with (String (ascii_of_nat 34) x) in E.
  injection E as E. by apply doubleQuotes_closed_inj.
Qed.

Lemma escapeIdentifier_injective_witness :
  escapeIdentifier "order" = escapeIdentifier "order" ∧ "order" = "order".
Proof.
  split; [reflexivity|].
  by apply (escapeIdentifier_injective "order" "order").
Defined.

(** ** generateColumnDefinition and the column text of createTable *)

(** X7. For a column that is not an identity column the exported
    [generateColumnDefinition] returns the very text [createTable] builds for
    it, with the same effect on the world. *)
Theorem generateColumnDefinition_agrees_with_createTable (col : Column) (w : World) :
  isIdentity col = false →
  generateColumnDefinition col w
  = (renderColumnDef (columnDefinition col w).1, (columnDefinition col w).2).
Proof.
  intros Hid. unfold generateColumnDefinition, columnDefinition.
  rewrite !bind_eq. rewrite Hid. rewrite !andb_true_r.
  destruct (mapDataType (dataType col) (maxLength col) (precision col) (scale col) w)
    as [pgType w1].
  cbn [fst snd mret M_ret]. f_equal. unfold renderColumnDef.
  cbn [colName colType colNotNull colDefault].
  assert (∀ s, s +:+ "" = s) as Hnil
    by (induction s as [|c r IH]; [done | by rewrite append_cons, IH]).
  assert (escapeIdentifier (name col) +:+ " " +:+ pgType +:+ "" +:+ ""
          = join " " [escapeIdentifier (name col); pgType]) as Hbare.
  { change ("" +:+ "") with "". by rewrite Hnil. }
  destruct (isNullable col); cbn [negb];
    (destruct (truthy (defaultValue col)); [|first [reflexivity | exact (eq_sym Hbare)]]);
    (destruct (convertDefaultValue (defaultValue col) pgType) as [d|];
       [|first [reflexivity | exact (eq_sym Hbare)]]);
    cbn [truthy]; destruct (isEmpty d);
    first [reflexivity | exact (eq_sym Hbare)].
Qed.

Lemma generateColumnDefinition_agrees_with_createTable_witness :
  (generateColumnDefinition
     (mkColumn "Amount" "decimal" None (Some 10%Z) (Some 2%Z) false (Some "((0))") false)
     initialWorld).1
  = escapeIdentifier "Amount" +:+ " NUMERIC(10,2) NOT NULL DEFAULT 0".
Proof.
  rewrite (generateColumnDefinition_agrees_with_createTable
             (mkColumn "Amount" "decimal" None (Some 10%Z) (Some 2%Z) false
                       (Some "((0))") false) initialWorld); reflexivity.
Defined.

(** ** The resolver: warnings and cycles *)

Lemma warned_counter (w w' : World) :
  warned w w' → warnings (stats w) ≤ warnings (stats w').
Proof.
  intros (_ & _ & entries & _ & _ & ->).
  generalize (length entries). intros n.
  induction n as [|n IH]; [done|].
  change (Nat.iter (S n) incrWarnings (stats w))
    with (incrWarnings (Nat.iter n incrWarnings (stats w))).
  cbn [incrWarnings warnings]. lia.
Qed.

Lemma grows_refl (st : VisitState) : grows st st.
Proof.
  split; [done|]. split; [exists []; by rewrite app_nil_r | apply warned_refl].
Qed.

Lemma grows_trans (a b c : VisitState) : grows a b → grows b c → grows a c.
Proof.
  intros (S1 & (e1 & E1) & W1) (S2 & (e2 & E2) & W2).
  split; [auto|]. split; [|by eapply warned_trans].
  exists (e1 ++ e2). by rewrite E2, E1, app_assoc.
Qed.

Lemma visit_grows (G : gmap string (list string)) (fuel : nat) :
  ∀ name st st', visit fuel G name st = Some st' → grows st st'.
Proof.
  induction fuel as [|fuel IH]; intros name st st' E; [discriminate|].
  cbn [visit] in E.
  destruct (decide (name ∈ visited st)); [injection E as <-; apply grows_refl|].
  destruct (decide (name ∈ visiting st)).
  { injection E as <-. split; [done|]. split; [exists []; by rewrite app_nil_r|].
    apply warned_circularWarning. }
  destruct (forEach _ _ _) as [st2|] eqn:E2; [|discriminate].
  injection E as <-.
  apply (forEach_related grows) in E2;
    [|apply grows_refl|apply grows_trans|by intros a s s' _; apply IH].
  destruct E2 as (S2 & (e2 & E2) & W2). cbn in *.
  split; [|split; [|done]].
  - intros Hs x. cbn. specialize (S2 Hs x). cbn in S2.
    rewrite elem_of_union, elem_of_singleton, elem_of_app, list_elem_of_singleton.
    tauto.
  - exists (e2 ++ [name]). cbn. by rewrite E2, app_assoc.
Qed.

Lemma grows_visited (a b : VisitState) (x : string) :
  grows a b → inSync a → x ∈ visited a → x ∈ visited b.
Proof.
  intros (S & (e & E) & _) Ha Hx. apply (S Ha). rewrite E.
  apply elem_of_app. left. by apply Ha.
Qed.

Lemma grows_counter (a b : VisitState) :
  grows a b → warnings (stats (world a)) ≤ warnings (stats (world b)).
Proof. intros (_ & _ & W). by apply warned_counter. Qed.

Lemma quiet_loop (G : gmap string (list string)) (fuel : nat)
    (IH : ∀ name st st', visit fuel G name st = Some st' →
          inSync st → fullyOrdered G (sorted st) →
          warnings (stats (world st')) = warnings (stats (world st)) →
          fullyOrdered G (sorted st') ∧ name ∈ visited st') :
  ∀ ds s s2, forEach (visit fuel G) ds s = Some s2 →
    inSync s → fullyOrdered G (sorted s) →
    warnings (stats (world s2)) = warnings (stats (world s)) →
    grows s s2 ∧ fullyOrdered G (sorted s2) ∧ ∀ y, y ∈ ds → y ∈ visited s2.
Proof.
  induction ds as [|d ds IHds]; intros s s2 El Hss Hos Hqs; cbn [forEach] in El.
  - injection El as <-. split; [apply grows_refl|]. split; [done|].
    intros y Hy. by apply elem_of_nil in Hy.
  - destruct (visit fuel G d s) as [s1|] eqn:E1; [|discriminate].
    pose proof (visit_grows G fuel d s s1 E1) as G1.
    assert (grows s1 s2) as G2.
    { apply (forEach_related grows) in El;
        [done|apply grows_refl|apply grows_trans|].
      intros a x x' _. apply visit_grows. }
    pose proof (grows_counter _ _ G1). pose proof (grows_counter _ _ G2).
    destruct (IH d s s1 E1 Hss Hos) as [Ho1 Hd]; [lia|].
    destruct (IHds s1 s2 El) as (_ & Ho2 & Hds); [by apply G1 | done | lia |].
    split; [by eapply grows_trans|]. split; [done|].
    intros y [->|Hy]%elem_of_cons; [|by apply Hds].
    eapply grows_visited; [done | by apply G1 | done].
Qed.

(** A call that counts no warning leaves every emitted table after all its
    dependencies, and its own table done. *)
Lemma visit_quiet (G : gmap string (list string)) (fuel : nat) :
  ∀ name st st', visit fuel G name st = Some st' →
    inSync st → fullyOrdered G (sorted st) →
    warnings (stats (world st')) = warnings (stats (world st)) →
    fullyOrdered G (sorted st') ∧ name ∈ visited st'.
Proof.
  induction fuel as [|fuel IH]; intros name st st' E Hs Ho Hq; [discriminate|].
  cbn [visit] in E.
  destruct (decide (name ∈ visited st)); [by injection E as <-|].
  destruct (decide (name ∈ visiting st)).
  { injection E as <-. cbn [world stats warnings incrWarnings] in Hq. lia. }
  destruct (forEach _ _ _) as [st2|] eqn:E2; [|discriminate].
  injection E as <-. cbn [world sorted visited] in *.
  destruct (quiet_loop G fuel IH _ _ _ E2) as (G2 & Ho2 & Hdeps); [done | done | done |].
  assert (inSync st2) as Hs2 by (by apply G2).
  split; [|apply elem_of_union; left; by apply elem_of_singleton].
  intros i x y Hi Hd.
  destruct (decide (i < length (sorted st2))) as [Hlt|Hge].
  - rewrite lookup_app_l in Hi by done.
    destruct (Ho2 i x y Hi Hd) as (j & Hj & Hy).
    exists j. split; [done|]. by rewrite lookup_app_l by lia.
  - rewrite lookup_app_r in Hi by lia.
    apply list_lookup_singleton_Some in Hi as [Hi <-].
    assert (y ∈ sorted st2) as Hy by (apply Hs2, Hdeps, Hd).
    apply list_elem_of_lookup in Hy as [j Hj].
    exists j. pose proof (lookup_lt_Some _ _ _ Hj).
    split; [lia|]. by rewrite lookup_app_l.
Qed.

(** In a list without duplicates in which every element comes after its
    dependencies, whatever an element reaches is nowhere later than it:
    such a graph has no cycle. *)
Lemma fullyOrdered_acyclic (G : gmap string (list string)) (l : list string) :
  NoDup l → fullyOrdered G l → (∀ x y, dependsOn G x y → x ∈ l) → ¬ cyclic G.
Proof.
  intros Hnd Ho Hdom.
  assert (∀ a b, rtc (dependsOn G) a b → ∀ i, l !! i = Some a →
            ∃ j, j ≤ i ∧ l !! j = Some b) as Hreach.
  { induction 1 as [a|a c b Hac _ IH]; intros i Hi; [by exists i|].
    destruct (Ho i a c Hi Hac) as (k & Hk & Hc).
    destruct (IH k Hc) as (j & Hj & Hb). exists j. split; [lia | done]. }
  intros (x & y & Hxy & Hyx).
  pose proof (Hdom x y Hxy) as Hx. apply list_elem_of_lookup in Hx as [i Hi].
  destruct (Ho i x y Hi Hxy) as (j & Hj & Hy).
  destruct (Hreach y x Hyx j Hy) as (i' & Hi' & Hx').
  pose proof (NoDup_lookup l i i' x Hnd Hi Hx'). lia.
Qed.

(** Without a cycle, a call on a table that is not in progress counts no
    warning. *)
Lemma visit_acyclic (G : gmap string (list string)) (fuel : nat) :
  ¬ cyclic G →
  ∀ name st st', visit fuel G name st = Some st' →
    name ∉ visiting st →
    (∀ v, v ∈ visiting st → rtc (dependsOn G) v name) →
    world st' = world st ∧ visiting st' = visiting st.
Proof.
  intros Hac. induction fuel as [|fuel IH]; intros name st st' E Hn Hstack;
    [discriminate|].
  cbn [visit] in E.
  destruct (decide (name ∈ visited st)); [by injection E as <-|].
  destruct (decide (name ∈ visiting st)); [done|].
  destruct (forEach _ _ _) as [st2|] eqn:E2; [|discriminate].
  injection E as <-. cbn [world visiting].
  assert (∀ ds s s2, forEach (visit fuel G) ds s = Some s2 →
            (∀ y, y ∈ ds → dependsOn G name y) →
            visiting s = {[name]} ∪ visiting st →
            world s2 = world s ∧ visiting s2 = visiting s) as Hloop.
  { induction ds as [|d ds IHds]; intros s s2 El Hds Hv; cbn [forEach] in El.
    - by injection El as <-.
    - destruct (visit fuel G d s) as [s1|] eqn:E1; [|discriminate].
      assert (dependsOn G name d) as Hd by (apply Hds; left).
      destruct (IH d s s1 E1) as [Hw1 Hv1].
      + rewrite Hv. intros [->%elem_of_singleton|Hin]%elem_of_union.
        * apply Hac. by exists name, name.
        * apply Hac. exists name, d. split; [done | by apply Hstack].
      + intros v. rewrite Hv. intros [->%elem_of_singleton|Hin]%elem_of_union.
        * by apply rtc_once.
        * eapply rtc_r; [by apply Hstack | done].
      + destruct (IHds s1 s2 El) as [Hw2 Hv2].
        * intros y Hy. apply Hds. by right.
        * by rewrite Hv1.
        * split; congruence. }
  destruct (Hloop _ _ _ E2) as [Hw2 Hv2]; [done | done |].
  split; [done|]. rewrite Hv2. cbn. apply set_eq. intros x.
  rewrite elem_of_difference, elem_of_union, elem_of_singleton.
  split; [tauto|]. intros Hx. split; [by right|]. by intros ->.
Qed.

Lemma roots_acyclic (G : gmap string (list string)) (fuel : nat) :
  ¬ cyclic G →
  ∀ roots s s2, forEach (visit fuel G) roots s = Some s2 →
    visiting s = ∅ → world s2 = world s.
Proof.
  intros Hac. induction roots as [|r roots IH]; intros s s2 E Hv; cbn [forEach] in E.
  - by injection E as <-.
  - destruct (visit fuel G r s) as [s1|] eqn:E1; [|discriminate].
    destruct (visit_acyclic G fuel Hac r s s1 E1) as [Hw1 Hv1].
    + rewrite Hv. apply not_elem_of_empty.
    + intros v. rewrite Hv. by intros ?%elem_of_empty.
    + rewrite (IH s1 s2 E) by congruence. done.
Qed.

(** X8. The resolver counts a warning exactly when the dependency graph has
    a directed cycle: without a cycle it leaves the world as it was, and a
    run that counts no warning proves the graph acyclic. *)
Theorem sortTablesByDependencies_warns_iff_cyclic (tables : list Table)
    (foreignKeys : list ForeignKey) (w : World) :
  ∃ out w',
    sortTablesByDependencies tables foreignKeys w = Some (out, w')
    ∧ (¬ cyclic (buildDependencies tables foreignKeys) → w' = w)
    ∧ (warnings (stats w') = warnings (stats w)
       ↔ ¬ cyclic (buildDependencies tables foreignKeys)).
Proof.
  destruct (resolver_keys tables foreignKeys w) as (st & E & Hnd & Hmem & _).
  exists (mapBack <$> sorted st), (world st).
  unfold sortTablesByDependencies. rewrite E. split; [done|].
  rewrite forEach_fmap in E.
  assert (¬ cyclic (buildDependencies tables foreignKeys) → world st = w) as Hquiet.
  { intros Hac. by rewrite (roots_acyclic _ _ Hac _ _ _ E). }
  split; [done|]. split; [|by intros ->%Hquiet].
  intros Hq.
  destruct (quiet_loop _ _ (visit_quiet _ _) _ _ _ E) as (_ & Ho & _).
  { intros x. cbn. split; [by intros ?%elem_of_empty | by intros ?%elem_of_nil]. }
  { intros i x y Hi. cbn in Hi. by rewrite lookup_nil in Hi. }
  { done. }
  apply (fullyOrdered_acyclic _ (sorted st)); [done | done |].
  intros x y (k & _ & _ & _ & Hx & _)%dependsOn_buildDependencies.
  by apply Hmem.
Qed.

Example sortTablesByDependencies_three_cycle_warns :
  ∃ out w',
    sortTablesByDependencies chainTables
      (fk "dbo" "C" "dbo" "A" :: chainForeignKeys) initialWorld = Some (out, w')
    ∧ out = chainSorted ∧ warnings (stats w') = 1.
Proof. eexists _, _. vm_compute. auto. Qed.

(** ** The resolver on every input *)

(** X9. On every table set and foreign-key list the resolver returns: the
    recursion of [visit] ends. The returned list has one entry per distinct
    table key, and of the world only the warning counter and the run log
    change, in step, by [DEPENDENCY] warnings. *)
Theorem sortTablesByDependencies_returns (tables : list Table)
    (foreignKeys : list ForeignKey) (w : World) :
  ∃ out w',
    sortTablesByDependencies tables foreignKeys w = Some (out, w')
    ∧ length out = size (list_to_set (tableKey <$> tables) : gset string)
    ∧ warned w w'.
Proof.
  destruct (sortTablesByDependencies_keys tables foreignKeys w)
    as (keys & w' & E & Hnd & Hmem & _ & Hw).
  exists (mapBack <$> keys), w'. split; [done|]. split; [|done].
  rewrite length_fmap, <- (size_list_to_set (C := gset string) keys Hnd).
  f_equal. apply set_eq. intros k. by rewrite !elem_of_list_to_set.
Qed.

(** X10. The dependency graph has an edge from one key to another exactly when
    a foreign key leads from the first to the second, both are keys of tables
    of the migrated set, and they differ: self-references and references to
    or from tables outside the set never enter the graph. *)
Theorem buildDependencies_edges (tables : list Table)
    (foreignKeys : list ForeignKey) (x y : string) :
  dependsOn (buildDependencies tables foreignKeys) x y
  ↔ ∃ k, k ∈ foreignKeys ∧ fkSource k = x ∧ fkTarget k = y
         ∧ x ∈ tableKey <$> tables ∧ y ∈ tableKey <$> tables ∧ x ≠ y.
Proof. apply dependsOn_buildDependencies. Qed.

(** X11. On a table set without dot in its names the resolver returns the
    input tables, each once, and every table that a foreign key on no cycle
    references is returned before the table that references it. *)
Theorem sortTablesByDependencies_order_without_dots (tables : list Table)
    (foreignKeys : list ForeignKey) (w : World) :
  (∀ t, t ∈ tables → dotFree t = true) →
  ∃ out w',
    sortTablesByDependencies tables foreignKeys w = Some (out, w')
    ∧ NoDup out
    ∧ (∀ t, t ∈ out ↔ t ∈ tables)
    ∧ (∀ k A B, k ∈ foreignKeys → A ∈ tables → B ∈ tables →
         fkSource k = tableKey A → fkTarget k = tableKey B → A ≠ B →
         ¬ rtc (dependsOn (buildDependencies tables foreignKeys))
               (tableKey B) (tableKey A) →
         ∃ i j, i < j ∧ out !! i = Some B ∧ out !! j = Some A).
Proof.
  intros Hdot.
  destruct (sortTablesByDependencies_dotFree tables foreignKeys w Hdot)
    as (out & w' & E & Hnd & Hmem & Hord & _).
  by exists out, w'.
Qed.

Lemma chainTables_dotFree (t : Table) : t ∈ chainTables → dotFree t = true.
Proof.
  unfold chainTables. intros Ht.
  apply elem_of_cons in Ht as [->|Ht]; [reflexivity|].
  apply elem_of_cons in Ht as [->|Ht]; [reflexivity|].
  apply elem_of_cons in Ht as [->|Ht]; [reflexivity|].
  by apply elem_of_nil in Ht.
Defined.

Lemma sortTablesByDependencies_order_without_dots_witness :
  ∃ out w',
    sortTablesByDependencies chainTables chainForeignKeys initialWorld = Some (out, w')
    ∧ NoDup out ∧ (∀ t, t ∈ out ↔ t ∈ chainTables).
Proof.
  destruct (sortTablesByDependencies_order_without_dots chainTables chainForeignKeys
              initialWorld chainTables_dotFree) as (out & w' & E & Hnd & Hmem & _).
  by exists out, w'.
Defined.

(** ** The statistics accumulator, phase by phase *)

Lemma Stats_eta (s : Stats) :
  s = mkStats (tablesProcessed s) (tablesCreated s) (primaryKeysCreated s)
              (foreignKeysCreated s) (totalRowsMigrated s) (errors s) (warnings s).
Proof. by destruct s. Qed.

Lemma createTable_stats (db : Connections) (schemaName tableName : string)
    (columns : list Column) (primaryKey : option KeyConstraint)
    (uniqueConstraints : list KeyConstraint) (w : World) :
  let r := createTable db schemaName tableName columns primaryKey uniqueConstraints w in
  logger r.2 = logger w
  ∧ ((r.1 = true
      ∧ stats r.2 = incrTablesCreated (bool_decide (is_Some primaryKey)) (stats w))
     ∨ (r.1 = false ∧ stats r.2 = incrErrors (stats w))).
Proof.
  unfold createTable. run_M.
  pose proof (columnDefinitions_effect columns w) as (H1 & H2 & H3).
  destruct (mapM columnDefinition columns w) as [defs w1]. cbn [snd] in *.
  destruct (pgQuery db _); cbn; rewrite H1, H2; auto.
Qed.

Lemma createTables_stats (db : Connections) (tables : list Table) :
  ∀ (tableMetadata : gmap string Metadata) (w : World),
    let r := createTables db tables tableMetadata w in
    logger r.2 = logger w
    ∧ (∀ k, is_Some (r.1 !! k)
            ↔ is_Some (tableMetadata !! k) ∨ k ∈ tableKey <$> tables)
    ∧ ∃ created keys failed,
        created + failed = length tables ∧ keys ≤ created
        ∧ stats r.2
          = mkStats (tablesProcessed (stats w)) (tablesCreated (stats w) + created)
              (primaryKeysCreated (stats w) + keys) (foreignKeysCreated (stats w))
              (totalRowsMigrated (stats w)) (errors (stats w) + failed)
              (warnings (stats w)).
Proof.
  induction tables as [|t tables IH]; intros m w; cbn [createTables].
  - split; [done|]. split.
    + intros k. rewrite fmap_nil, elem_of_nil. tauto.
    + exists 0, 0, 0. rewrite !Nat.add_0_r. split; [done|]. split; [done|].
      apply Stats_eta.
  - rewrite bind_eq.
    pose proof (createTable_stats db (schema_name t) (table_name t)
      (getColumns db (schema_name t) (table_name t))
      (getPrimaryKey db (schema_name t) (table_name t))
      (getUniqueConstraints db (schema_name t) (table_name t)) w) as [Hl Hs].
    set (w1 := (createTable db _ _ _ _ _ w).2) in *.
    match goal with |- context [createTables db tables ?m' w1] =>
      destruct (IH m' w1) as (Hl2 & Hdom & created & keys & failed & Hsum & Hk & Hst)
    end.
    split; [congruence|]. split.
    + intros k. rewrite Hdom, fmap_cons, elem_of_cons.
      destruct (decide (k = tableKey t)) as [->|Hne].
      * rewrite lookup_insert_eq. split; [auto|]. intros _. left. by eexists.
      * rewrite lookup_insert_ne by done. tauto.
    + destruct Hs as [[_ Hs]|[_ Hs]]; rewrite Hst, Hs.
      * exists (S created), ((if bool_decide (is_Some (getPrimaryKey db (schema_name t)
                   (table_name t))) then 1 else 0) + keys), failed.
        cbn [length]. split; [lia|]. split; [by destruct (bool_decide _); lia|].
        unfold incrTablesCreated. cbn. destruct (bool_decide _); f_equal; lia.
      * exists created, keys, (S failed). cbn [length]. split; [lia|].
        split; [done|]. unfold incrErrors. cbn. f_equal; lia.
Qed.



Lemma createForeignKeys_stats (db : Connections) (foreignKeys : list ForeignKey) :
  ∀ w, logger (createForeignKeys db foreignKeys w).2 = logger w
       ∧ stats (createForeignKeys db foreignKeys w).2
         = mkStats (tablesProcessed (stats w)) (tablesCreated (stats w))
             (primaryKeysCreated (stats w))
             (foreignKeysCreated (stats w)
              + length (filter (λ k, pgQuery db (alterTableOp k) = true) foreignKeys))
             (totalRowsMigrated (stats w))
             (errors (stats w)
              + length (filter (λ k, pgQuery db (alterTableOp k) = false) foreignKeys))
             (warnings (stats w)).
Proof.
  unfold createForeignKeys. set (body := λ k : ForeignKey, _).
  assert (∀ k w, logger (body k w).2 = logger w
                 ∧ stats (body k w).2
                   = if pgQuery db (alterTableOp k)
                     then incrForeignKeysCreated (stats w)
                     else incrErrors (stats w)) as Hbody.
  { intros k w. unfold body. run_M. by destruct (pgQuery db _). }
  induction foreignKeys as [|k fks IH]; intros w; cbn [forM_].
  - split; [done|]. cbn. rewrite !Nat.add_0_r. apply Stats_eta.
  - rewrite bind_eq. destruct (IH (body k w).2) as [Hl Hs].
    destruct (Hbody k w) as [Hl1 Hs1]. rewrite Hl, Hs, Hl1, Hs1.
    split; [done|]. rewrite !filter_cons.
    destruct (pgQuery db (alterTableOp k)) eqn:Hq.
    + rewrite decide_True, decide_False by done. cbn. f_equal; lia.
    + rewrite decide_False, decide_True by done. cbn. f_equal; lia.
Qed.


Lemma resetSequences_stats (db : Connections) (schemaName tableName : string)
    (columns : list Column) :
  ∀ w, ∃ warns,
    stats (resetSequences db schemaName tableName columns w).2
    = mkStats (tablesProcessed (stats w)) (tablesCreated (stats w))
        (primaryKeysCreated (stats w)) (foreignKeysCreated (stats w))
        (totalRowsMigrated (stats w)) (errors (stats w)) (warnings (stats w) + warns).
Proof.
  unfold resetSequences. set (body := λ col : Column, _).
  assert (∀ col w, stats (body col w).2 = stats w
                   ∨ stats (body col w).2 = incrWarnings (stats w)) as Hbody.
  { intros col w. unfold body. destruct (isIdentity col); [|by left].
    run_M. destruct (pgQuery db _); [by left | by right]. }
  induction columns as [|col columns IH]; intros w; cbn [forM_].
  - exists 0. rewrite Nat.add_0_r. apply Stats_eta.
  - rewrite bind_eq. destruct (IH (body col w).2) as [warns ->].
    destruct (Hbody col w) as [-> | ->].
    + by exists warns.
    + exists (S warns). cbn. f_equal; lia.
Qed.

Lemma migrateTableData_stats (db : Connections) (schemaName tableName : string)
    (columns : list Column) (w : World) :
  let r := migrateTableData db schemaName tableName columns w in
  match dataLoad db schemaName tableName with
  | Some rows => r.1 = true ∧ stats r.2 = addRowsMigrated rows (stats w)
  | None => r.1 = false ∧ stats r.2 = incrErrors (stats w)
  end.
Proof. unfold migrateTableData. run_M. by destruct (dataLoad db _ _). Qed.


Lemma migrateTables_stats (db : Connections) (tableMetadata : gmap string Metadata)
    (sortedTables : list Table) :
  ∀ w, let r := migrateTables db tableMetadata sortedTables w in
       ∃ rows failed warns,
         stats r.2
         = mkStats (tablesProcessed (stats w)) (tablesCreated (stats w))
             (primaryKeysCreated (stats w)) (foreignKeysCreated (stats w))
             (totalRowsMigrated (stats w) + rows) (errors (stats w) + failed)
             (warnings (stats w) + warns)
         ∧ (failed = 0 → r.1 = true →
            ∀ t, t ∈ sortedTables →
                 is_Some (dataLoad db (schema_name t) (table_name t))).
Proof.
  induction sortedTables as [|t rest IH]; intros w; cbn [migrateTables].
  - exists 0, 0, 0. rewrite !Nat.add_0_r. split; [apply Stats_eta|].
    intros _ _ t Ht. by apply elem_of_nil in Ht.
  - destruct (tableMetadata !! tableKey t) as [metadata|] eqn:Hm.
    2:{ exists 0, 0, 0. rewrite !Nat.add_0_r. split; [apply Stats_eta | done]. }
    rewrite !bind_eq.
    pose proof (migrateTableData_stats db (schema_name t) (table_name t)
                  (metaColumns metadata) w) as Hload.
    cbv zeta in Hload.
    set (w1 := (migrateTableData db _ _ _ w).2) in *.
    destruct (resetSequences_stats db (schema_name t) (table_name t)
                (metaColumns metadata) w1) as [warns1 Hreset].
    set (w2 := (resetSequences db _ _ _ w1).2) in *.
    destruct (IH w2) as (rows & failed & warns & Hst & Hall).
    rewrite Hst, Hreset. cbn [tablesProcessed tablesCreated primaryKeysCreated
      foreignKeysCreated totalRowsMigrated errors warnings].
    destruct (dataLoad db (schema_name t) (table_name t)) as [n|] eqn:Hd;
      destruct Hload as [_ ->].
    + exists (n + rows), failed, (warns1 + warns). split; [cbn; f_equal; lia|].
      intros Hf Hok t' [->|Ht']%elem_of_cons; [by rewrite Hd | by apply Hall].
    + exists rows, (S failed), (warns1 + warns). split; [cbn; f_equal; lia | lia].
Qed.

(** The run of [migrate], taken apart. *)
Lemma migrate_run (db : Connections) (tables : list Table)
    (foreignKeys : list ForeignKey) (w : World) :
  let w0 := (updateStats (setTablesProcessed (length tables)) w).2 in
  let p1 := createTables db tables ∅ w0 in
  let w2 := (createForeignKeys db foreignKeys p1.2).2 in
  ∃ sortedTables w3,
    sortTablesByDependencies tables foreignKeys w2 = Some (sortedTables, w3)
    ∧ migrate db tables foreignKeys w
      = if (migrateTables db p1.1 sortedTables w3).1
        then (Completed, (migrateTables db p1.1 sortedTables w3).2)
        else (Failed,
              (updateStats incrErrors (migrateTables db p1.1 sortedTables w3).2).2).
Proof.
  intros w0 p1 w2.
  destruct (sortTablesByDependencies_keys tables foreignKeys w2)
    as (keys & w3 & E & _).
  exists (mapBack <$> keys), w3. split; [done|].
  unfold migrate. rewrite !bind_eq. fold w0. fold p1. fold w2. rewrite E.
  rewrite bind_eq.
  by destruct (migrateTables db p1.1 (mapBack <$> keys) w3).1.
Qed.


Example migrate_fails_on_dotted_name :
  (migrate acceptingConnections [ordersArchive] [] initialWorld).1 = Failed
  ∧ errors (stats (migrate acceptingConnections [ordersArchive] [] initialWorld).2) = 1
  ∧ loadedTables
      (target (migrate acceptingConnections [ordersArchive] [] initialWorld).2) = [].
Proof. vm_compute. auto. Qed.

Lemma warned_stats (w w' : World) :
  warned w w' →
  ∃ warns, stats w'
           = mkStats (tablesProcessed (stats w)) (tablesCreated (stats w))
               (primaryKeysCreated (stats w)) (foreignKeysCreated (stats w))
               (totalRowsMigrated (stats w)) (errors (stats w))
               (warnings (stats w) + warns).
Proof.
  intros (_ & _ & entries & _ & _ & ->).
  exists (length entries). generalize (length entries). intros n.
  induction n as [|n IH]; [rewrite Nat.add_0_r; apply Stats_eta|].
  change (Nat.iter (S n) incrWarnings (stats w))
    with (incrWarnings (Nat.iter n incrWarnings (stats w))).
  rewrite IH. unfold incrWarnings.
  cbn [tablesProcessed tablesCreated primaryKeysCreated foreignKeysCreated
       totalRowsMigrated errors warnings].
  f_equal. lia.
Qed.

(** What a run sends to the target after the foreign-key statements is the
    data load, over the list the resolver returns. *)
Lemma migrate_loads (db : Connections) (tables : list Table)
    (foreignKeys : list ForeignKey) (w : World) :
  let w0 := (updateStats (setTablesProcessed (length tables)) w).2 in
  let p1 := createTables db tables ∅ w0 in
  let w2 := (createForeignKeys db foreignKeys p1.2).2 in
  ∃ sortedTables w3 ops,
    sortTablesByDependencies tables foreignKeys w2 = Some (sortedTables, w3)
    ∧ target (migrate db tables foreignKeys w).2 = target w ++ ops
    ∧ loadedTables ops `prefix_of` sortedTables
    ∧ ((migrate db tables foreignKeys w).1 = Completed →
       loadedTables ops = sortedTables).
Proof.
  intros w0 p1 w2.
  destruct (migrate_run db tables foreignKeys w) as (sortedTables & w3 & E & Hrun).
  fold w0 p1 w2 in E, Hrun.
  destruct (sortTablesByDependencies_keys tables foreignKeys w2)
    as (keys & w3' & E' & _ & _ & _ & (_ & Ht3 & _)).
  rewrite E in E'. injection E' as -> <-.
  destruct (createTables_effect db tables ∅ w0) as (_ & ops1 & H1 & _ & Hl1).
  fold p1 in H1.
  pose proof (createForeignKeys_effect db foreignKeys p1.2) as H2. fold w2 in H2.
  destruct (migrateTables_effect db p1.1 (mapBack <$> keys) w3)
    as (ops3 & H3 & _ & Hp3 & Hok3).
  assert (target w0 = target w) as H0 by done.
  assert (loadedTables (ops1 ++ (alterTableOp <$> foreignKeys) ++ ops3)
          = loadedTables ops3) as Hl.
  { unfold loadedTables in *. rewrite !omap_app, Hl1. cbn.
    fold (loadedTables (alterTableOp <$> foreignKeys)).
    by rewrite loadedTables_alterTableOp. }
  exists (mapBack <$> keys), w3, (ops1 ++ (alterTableOp <$> foreignKeys) ++ ops3).
  split; [done|]. rewrite Hl, Hrun.
  destruct (migrateTables db p1.1 (mapBack <$> keys) w3).1.
  - cbn [fst snd]. split; [|split; [done | auto]].
    rewrite H3, Ht3, H2, H1, H0. by rewrite <- !app_assoc.
  - split; [|split; [done | discriminate]].
    run_M. rewrite H3, Ht3, H2, H1, H0. by rewrite <- !app_assoc.
Qed.







(** The counters at the end of a run, in terms of what each phase met. *)
Lemma migrate_stats (db : Connections) (tables : list Table)
    (foreignKeys : list ForeignKey) (w : World) :
  ∃ ops created keys failed rows failedLoads warns,
    target (migrate db tables foreignKeys w).2 = target w ++ ops
    ∧ created + failed = length tables ∧ keys ≤ created
    ∧ stats (migrate db tables foreignKeys w).2
      = mkStats (length tables) (tablesCreated (stats w) + created)
          (primaryKeysCreated (stats w) + keys)
          (foreignKeysCreated (stats w)
           + length (filter (λ k, pgQuery db (alterTableOp k) = true) foreignKeys))
          (totalRowsMigrated (stats w) + rows)
          (errors (stats w) + failed
           + length (filter (λ k, pgQuery db (alterTableOp k) = false) foreignKeys)
           + failedLoads
           + match (migrate db tables foreignKeys w).1 with
             | Completed => 0
             | Failed => 1
             end)
          (warnings (stats w) + warns)
    ∧ (failedLoads = 0 → (migrate db tables foreignKeys w).1 = Completed →
       ∀ t, t ∈ loadedTables ops →
            is_Some (dataLoad db (schema_name t) (table_name t))).
Proof.
  destruct (migrate_loads db tables foreignKeys w)
    as (sortedTables & w3 & ops & E & Ht & _ & Hok). cbv zeta in E.
  destruct (migrate_run db tables foreignKeys w) as (sorted' & w3' & E' & Hrun).
  cbv zeta in E'. rewrite E in E'. injection E' as <- <-.
  set (w0 := (updateStats (setTablesProcessed (length tables)) w).2) in *.
  destruct (createTables_stats db tables ∅ w0)
    as (_ & _ & created & keys & failed & Hsum & Hk & Hs1).
  set (p1 := createTables db tables ∅ w0) in *.
  destruct (createForeignKeys_stats db foreignKeys p1.2) as [_ Hs2].
  set (w2 := (createForeignKeys db foreignKeys p1.2).2) in *.
  destruct (sortTablesByDependencies_keys tables foreignKeys w2)
    as (keys' & w3' & E' & _ & _ & _ & Hwarned).
  rewrite E in E'. injection E' as -> <-.
  apply warned_stats in Hwarned as [warns2 Hs3].
  destruct (migrateTables_stats db p1.1 (mapBack <$> keys') w3)
    as (rows & failedLoads & warns3 & Hs4 & Hall).
  exists ops, created, keys, failed, rows, failedLoads, (warns2 + warns3).
  split; [done|]. split; [done|]. split; [done|]. split.
  - rewrite Hrun. cbv zeta in Hs4.
    destruct (migrateTables db p1.1 (mapBack <$> keys') w3).1; run_M;
      rewrite Hs4, Hs3, Hs2, Hs1; unfold incrErrors;
      cbn [tablesProcessed tablesCreated primaryKeysCreated foreignKeysCreated
           totalRowsMigrated errors warnings];
      subst w0; unfold updateStats, setTablesProcessed;
      cbn [snd stats tablesProcessed tablesCreated primaryKeysCreated
           foreignKeysCreated totalRowsMigrated errors warnings];
      f_equal; lia.
  - intros Hf Hdone t Hl. rewrite (Hok Hdone) in Hl.
    apply Hall; [done | | done]. rewrite Hrun in Hdone.
    by destruct (migrateTables db p1.1 (mapBack <$> keys') w3).1.
Qed.

(** X16. A run that ends with the error counter where it started (the
    summary then reads SUCCESS) has done all of its work: it completed, the
    target accepted the statement of every table and of every foreign key, and
    every data load it started succeeded. *)
Theorem migrate_without_errors_did_everything (db : Connections)
    (tables : list Table) (foreignKeys : list ForeignKey) (w : World) :
  let r := migrate db tables foreignKeys w in
  errors (stats r.2) = errors (stats w) →
  r.1 = Completed
  ∧ tablesCreated (stats r.2) = tablesCreated (stats w) + length tables
  ∧ foreignKeysCreated (stats r.2)
    = foreignKeysCreated (stats w) + length foreignKeys
  ∧ Forall (λ k, pgQuery db (alterTableOp k) = true) foreignKeys
  ∧ ∃ ops, target r.2 = target w ++ ops
           ∧ ∀ t, t ∈ loadedTables ops →
                  is_Some (dataLoad db (schema_name t) (table_name t)).
Proof.
  intros r. unfold r. clear r.
  destruct (migrate_stats db tables foreignKeys w)
    as (ops & created & keys & failed & rows & failedLoads & warns
        & Ht & Hsum & _ & -> & Hall).
  cbn [errors tablesCreated foreignKeysCreated]. intros He.
  assert (length (filter (λ k, pgQuery db (alterTableOp k) = true) foreignKeys)
          + length (filter (λ k, pgQuery db (alterTableOp k) = false) foreignKeys)
          = length foreignKeys) as Hfk.
  { clear. induction foreignKeys as [|k fks IH]; [done|].
    rewrite !filter_cons. destruct (pgQuery db (alterTableOp k)) eqn:Hq.
    - rewrite decide_True, decide_False by done. cbn. lia.
    - rewrite decide_False, decide_True by done. cbn. lia. }
  assert ((migrate db tables foreignKeys w).1 = Completed) as Hdone.
  { destruct (migrate db tables foreignKeys w).1; [done | lia]. }
  rewrite Hdone in He.
  split; [done|]. split; [lia|]. split; [lia|]. split.
  - apply Forall_forall. intros k Hk.
    destruct (pgQuery db (alterTableOp k)) eqn:Hq; [done|].
    assert (k ∈ filter (λ k, pgQuery db (alterTableOp k) = false) foreignKeys)
      as Hin by (apply list_elem_of_filter; by split).
    apply list_elem_of_lookup in Hin as [i Hi]. apply lookup_lt_Some in Hi. lia.
  - exists ops. split; [done|]. apply Hall; [lia | done].
Qed.

Lemma migrate_without_errors_did_everything_witness :
  (migrate acceptingConnections chainTables chainForeignKeys initialWorld).1
  = Completed.
Proof.
  refine (proj1 (migrate_without_errors_did_everything acceptingConnections
                   chainTables chainForeignKeys initialWorld _)).
  vm_compute. reflexivity.
Defined.

(** ** getAllForeignKeys *)

Lemma rowsOf_none (key : string) (recordset : list ForeignKeyRow.t) :
  key ∉ rowKey <$> recordset → rowsOf key recordset = [].
Proof.
  unfold rowsOf. induction recordset as [|row rest IH]; [done|].
  rewrite fmap_cons, not_elem_of_cons. intros [Hne Hrest].
  rewrite filter_cons, decide_False by done. by apply IH.
Qed.

Lemma rowsOf_snoc (key : string) (recordset : list ForeignKeyRow.t)
    (row : ForeignKeyRow.t) :
  rowsOf key (recordset ++ [row])
  = rowsOf key recordset ++ (if decide (rowKey row = key) then [row] else []).
Proof.
  unfold rowsOf. rewrite filter_app. f_equal.
Qed.

Lemma grouped_groupRow (recordset : list ForeignKeyRow.t) (obj : Grouping)
    (row : ForeignKeyRow.t) :
  grouped recordset obj → grouped (recordset ++ [row]) (groupRow obj row).
Proof.
  intros [Hnd Hsl Hk Hv]. unfold groupRow. cbv zeta.
  destruct (slots obj !! rowKey row) as [fk0|] eqn:Hlook.
  - split; cbn [ownKeys slots].
    + done.
    + intros key. rewrite Hsl. destruct (decide (rowKey row = key)) as [<-|Hne].
      * rewrite lookup_alter_eq, Hlook. split; intros _; by eexists.
      * by rewrite lookup_alter_ne.
    + intros key. rewrite fmap_app, elem_of_app, <- Hk. cbn.
      rewrite list_elem_of_singleton. split; [auto|]. intros [? | ->]; [done|].
      apply Hsl. by eexists.
    + intros key fk. rewrite rowsOf_snoc, !fmap_app.
      destruct (decide (rowKey row = key)) as [<-|Hne].
      * rewrite lookup_alter_eq, Hlook. cbn. intros [= <-].
        destruct (Hv _ _ Hlook) as (Hkey & Hc & Hr).
        split; [exact Hkey|]. cbn [columns referencedColumns pushColumns].
        by rewrite Hc, Hr.
      * rewrite lookup_alter_ne by done. intros Hfk.
        destruct (Hv _ _ Hfk) as (Hkey & Hc & Hr). cbn.
        by rewrite !app_nil_r.
  - assert (rowKey row ∉ ownKeys obj) as Hfresh.
    { rewrite Hsl, Hlook. by intros [? ?]. }
    split; cbn [ownKeys slots].
    + apply NoDup_app. split; [done|]. split; [|apply NoDup_singleton].
      intros key Hin ->%list_elem_of_singleton. done.
    + intros key. rewrite elem_of_app, list_elem_of_singleton, Hsl.
      destruct (decide (rowKey row = key)) as [<-|Hne].
      * rewrite lookup_alter_eq, lookup_insert_eq. cbn.
        split; [by eexists | auto].
      * rewrite lookup_alter_ne, lookup_insert_ne by done.
        split; [by intros [? | ->]| auto].
    + intros key. rewrite fmap_app, !elem_of_app, <- Hk. cbn.
      by rewrite !list_elem_of_singleton.
    + intros key fk. rewrite rowsOf_snoc, !fmap_app.
      destruct (decide (rowKey row = key)) as [<-|Hne].
      * rewrite lookup_alter_eq, lookup_insert_eq. cbn. intros [= <-].
        rewrite rowsOf_none by (by rewrite <- Hk). done.
      * rewrite lookup_alter_ne, lookup_insert_ne by done. intros Hfk.
        destruct (Hv _ _ Hfk) as (Hkey & Hc & Hr). cbn.
        by rewrite !app_nil_r.
Qed.

Lemma grouped_foldl (recordset : list ForeignKeyRow.t) :
  grouped recordset (foldl groupRow (mkGrouping [] ∅) recordset).
Proof.
  induction recordset as [|row rest IH] using rev_ind.
  - split; cbn; try done.
    + apply NoDup_nil_2.
    + intros key. rewrite elem_of_nil, lookup_empty. split; [done | by intros [? ?]].
  - rewrite foldl_app. cbn [foldl]. by apply grouped_groupRow.
Qed.

Lemma objectValues_grouped (recordset : list ForeignKeyRow.t) (obj : Grouping) :
  grouped recordset obj →
  foreignKeyKey <$> objectValues obj = ownKeys obj
  ∧ ∀ fk, fk ∈ objectValues obj → slots obj !! foreignKeyKey fk = Some fk.
Proof.
  intros [_ Hsl _ Hv]. unfold objectValues.
  assert (∀ key, key ∈ ownKeys obj → is_Some (slots obj !! key)) as Hall
    by (intros key; apply Hsl).
  split.
  - revert Hall. generalize (ownKeys obj). intros keys.
    induction keys as [|key keys IH]; intros Hall; [done|]. cbn.
    destruct (Hall key) as [fk Hfk]; [left|]. rewrite Hfk. cbn.
    rewrite IH by (intros k Hk; apply Hall; by right).
    by destruct (Hv _ _ Hfk) as [-> _].
  - intros fk (key & _ & Hfk)%list_elem_of_omap.
    by destruct (Hv _ _ Hfk) as [-> _].
Qed.

Lemma getAllForeignKeys_spec (recordset : list ForeignKeyRow.t) :
  let foreignKeys := getAllForeignKeys recordset in
  NoDup (foreignKeyKey <$> foreignKeys)
  ∧ (∀ key, key ∈ foreignKeyKey <$> foreignKeys ↔ key ∈ rowKey <$> recordset)
  ∧ ∀ fk, fk ∈ foreignKeys →
      columns fk
      = ForeignKeyRow.columnName <$> rowsOf (foreignKeyKey fk) recordset
      ∧ referencedColumns fk
        = ForeignKeyRow.referencedColumn <$> rowsOf (foreignKeyKey fk) recordset
      ∧ columns fk ≠ []
      ∧ length (columns fk) = length (referencedColumns fk).
Proof.
  intros foreignKeys. unfold foreignKeys, getAllForeignKeys.
  pose proof (grouped_foldl recordset) as Hg.
  destruct (objectValues_grouped _ _ Hg) as [Hkeys Hin].
  destruct Hg as [Hnd Hsl Hk Hv]. rewrite Hkeys.
  split; [done|]. split; [done|]. intros fk Hfk.
  destruct (Hv _ _ (Hin fk Hfk)) as (_ & Hc & Hr).
  split; [done|]. split; [done|]. split.
  - assert (foreignKeyKey fk ∈ rowKey <$> recordset) as Hocc.
    { apply Hk, Hsl. exists fk. by apply Hin. }
    apply list_elem_of_fmap in Hocc as (row & Hrow & Hmem).
    rewrite Hc. intros Hnil%fmap_nil_inv.
    assert (row ∈ rowsOf (foreignKeyKey fk) recordset) as Hx
      by (apply list_elem_of_filter; by split).
    rewrite Hnil in Hx. by apply elem_of_nil in Hx.
  - by rewrite Hc, Hr, !length_fmap.
Qed.

(** X17. [getAllForeignKeys] groups the rows of its query by the key made of
    schema, table and constraint name: it returns one foreign key for each
    key that occurs, and the foreign key holds the columns of all the rows
    of its key, and of no other row, in the order of the rows, each column
    at the position of the column it references. *)
Theorem getAllForeignKeys_groups_rows (recordset : list ForeignKeyRow.t) :
  let foreignKeys := getAllForeignKeys recordset in
  NoDup (foreignKeyKey <$> foreignKeys)
  ∧ (∀ key, key ∈ foreignKeyKey <$> foreignKeys ↔ key ∈ rowKey <$> recordset)
  ∧ ∀ fk, fk ∈ foreignKeys →
      columns fk
      = ForeignKeyRow.columnName <$> rowsOf (foreignKeyKey fk) recordset
      ∧ referencedColumns fk
        = ForeignKeyRow.referencedColumn <$> rowsOf (foreignKeyKey fk) recordset
      ∧ columns fk ≠ []
      ∧ length (columns fk) = length (referencedColumns fk).
Proof. exact (getAllForeignKeys_spec recordset). Qed.

Example getAllForeignKeys_catalog :
  getAllForeignKeys catalogRows
  = [mkForeignKey "FK_a" "dbo" "orders" ["vendor_id"] "dbo" "vendors" ["id"]
       "NO_ACTION" "CASCADE";
     mkForeignKey "FK_b" "dbo" "lines" ["order_id"; "order_rev"] "dbo" "orders"
       ["id"; "rev"] "NO_ACTION" "CASCADE";
     mkForeignKey "FK_c" "dbo" "audit" ["order_id"] "dbo" "orders" ["id"]
       "NO_ACTION" "CASCADE"].
Proof. vm_compute. reflexivity. Qed.

(** ** migrateTableData, batch by batch *)

Section batches.
Context {Row : Type} (io : Transfer Row).

Lemma insertRows_app (rows : list Row) :
  ∀ visible table,
    Batches.insertRows io visible rows = Some table → table = visible ++ rows.
Proof.
  induction rows as [|row rest IH]; intros visible table; cbn.
  - intros [= <-]. by rewrite app_nil_r.
  - destruct (insertRow io visible row); [|done].
    intros ->%IH. by rewrite <- app_assoc.
Qed.

Lemma insertRows_accepted (rows : list Row) :
  (∀ visible row, insertRow io visible row = true) →
  ∀ visible, Batches.insertRows io visible rows = Some (visible ++ rows).
Proof.
  intros Hall. induction rows as [|row rest IH]; intros visible; cbn.
  - by rewrite app_nil_r.
  - by rewrite Hall, IH, <- app_assoc.
Qed.

(** With a positive batch size the loop ends before the fuel does, and what
    it counts is what it has committed. *)
Lemma batchLoop_returns (totalRows : Z) :
  (0 < BATCH_SIZE io)%Z →
  ∀ fuel offset totalMigrated table,
    Z.to_nat (totalRows - offset) < fuel →
    ∃ added,
      Batches.batchLoop io fuel totalRows offset totalMigrated table
      = Some (Thrown (table ++ added))
      ∨ Batches.batchLoop io fuel totalRows offset totalMigrated table
        = Some (Finished (totalMigrated + length added) (table ++ added)).
Proof.
  intros Hpos. induction fuel as [|fuel IH]; intros offset n table Hfuel; [lia|].
  cbn [Batches.batchLoop].
  destruct (Z.ltb_spec offset totalRows) as [Hlt|Hge].
  2:{ exists []. right. by rewrite app_nil_r, Nat.add_0_r. }
  destruct (selectBatch io offset) as [[|row rows]|].
  - exists []. right. by rewrite app_nil_r, Nat.add_0_r.
  - destruct (Batches.insertRows io table (row :: rows)) as [table'|] eqn:Hins.
    + apply insertRows_app in Hins as ->.
      destruct (IH (offset + BATCH_SIZE io)%Z (n + length (row :: rows))
                  (table ++ row :: rows)) as [added [-> | ->]]; [lia| |].
      * exists ((row :: rows) ++ added). left. by rewrite <- app_assoc.
      * exists ((row :: rows) ++ added). right.
        rewrite <- app_assoc, length_app. do 2 f_equal. lia.
    + exists []. left. by rewrite app_nil_r.
  - exists []. left. by rewrite app_nil_r.
Qed.

(** From a source that does not change, to a target that accepts every row,
    the loop copies the rows that are left, in their order. *)
Lemma batchLoop_copies (rows : list Row) (table : list Row) :
  (0 < BATCH_SIZE io)%Z →
  (∀ offset : nat,
     selectBatch io (Z.of_nat offset)
     = Some (take (Z.to_nat (BATCH_SIZE io)) (drop offset rows))) →
  (∀ visible row, insertRow io visible row = true) →
  ∀ fuel (offset : nat),
    length rows - offset < fuel →
    Batches.batchLoop io fuel (Z.of_nat (length rows)) (Z.of_nat offset)
      (length (take offset rows)) (table ++ take offset rows)
    = Some (Finished (length rows) (table ++ rows)).
Proof.
  intros Hpos Hsel Hacc. induction fuel as [|fuel IH]; intros offset Hfuel; [lia|].
  cbn [Batches.batchLoop].
  destruct (Z.ltb_spec (Z.of_nat offset) (Z.of_nat (length rows))) as [Hlt|Hge].
  2:{ rewrite take_ge by lia. done. }
  rewrite Hsel.
  set (b := Z.to_nat (BATCH_SIZE io)).
  assert (take (offset + b) rows = take offset rows ++ take b (drop offset rows))
    as Htake by (by rewrite take_take_drop).
  destruct (take b (drop offset rows)) as [|row page] eqn:Hpage.
  { apply (f_equal length) in Hpage. rewrite length_take, length_drop in Hpage.
    cbn in Hpage. lia. }
  rewrite insertRows_accepted by done.
  replace (Z.of_nat offset + BATCH_SIZE io)%Z with (Z.of_nat (offset + b)) by lia.
  rewrite <- app_assoc, <- Htake, <- length_app, <- Htake.
  apply IH. lia.
Qed.

End batches.

(** X18. With a positive batch size the load of a table returns, whatever
    the two connections answer.  When it succeeds, the row counter has grown
    by the number of rows that the target table has gained and no error is
    counted; when it fails, one error is counted and the row counter has not
    moved, whatever the batches committed before the failure have left in
    the table. *)
Theorem migrateTableData_counts_rows_only_on_success {Row : Type}
    (io : Transfer Row) (columns : list Column) (s : Stats) (table : list Row) :
  (0 < BATCH_SIZE io)%Z →
  ∃ ok added,
    Batches.migrateTableData io columns s table
    = Some (ok,
            if ok : bool
            then mkStats (tablesProcessed s) (tablesCreated s)
                   (primaryKeysCreated s) (foreignKeysCreated s)
                   (totalRowsMigrated s + length added) (errors s) (warnings s)
            else incrErrors s,
            table ++ added).
Proof.
  intros Hpos. unfold Batches.migrateTableData.
  destruct (getRowCount io) as [totalRows|].
  2:{ exists false, []. by rewrite app_nil_r. }
  destruct (totalRows =? 0)%Z.
  { exists true, []. rewrite app_nil_r, Nat.add_0_r. by rewrite <- Stats_eta. }
  destruct columns as [|col columns].
  { exists false, []. by rewrite app_nil_r. }
  destruct (batchLoop_returns io totalRows Hpos (S (Z.to_nat totalRows)) 0%Z 0 table)
    as [added [-> | ->]]; [lia| |].
  - by exists false, added.
  - by exists true, added.
Qed.

Lemma migrateTableData_counts_rows_only_on_success_witness :
  ∃ ok added,
    Batches.migrateTableData (fiveRows (λ _, true)) [aColumn] initialStats []
    = Some (ok,
            if ok : bool
            then mkStats (tablesProcessed initialStats) (tablesCreated initialStats)
                   (primaryKeysCreated initialStats)
                   (foreignKeysCreated initialStats)
                   (totalRowsMigrated initialStats + length added)
                   (errors initialStats) (warnings initialStats)
            else incrErrors initialStats,
            [] ++ added).
Proof.
  apply (migrateTableData_counts_rows_only_on_success (fiveRows (λ _, true))).
  reflexivity.
Defined.

(** A failure in the third batch: the two batches before it stay in the
    target, and no row is counted. *)
Example migrateTableData_failed_load_keeps_batches :
  Batches.migrateTableData (fiveRows (λ row, negb (row =? 5))) [aColumn]
    initialStats []
  = Some (false, incrErrors initialStats, [1; 2; 3; 4]).
Proof. vm_compute. reflexivity. Qed.

(** X19. From a source that does not change during the load, read with a
    positive batch size, to a target that accepts every row, the load of a
    table with at least one column succeeds: the target table gains the rows
    of the source, every row once and in the order of the source, and the
    row counter grows by their number. *)
Theorem migrateTableData_copies_stable_source {Row : Type} (io : Transfer Row)
    (rows : list Row) (columns : list Column) (s : Stats) (table : list Row) :
  (0 < BATCH_SIZE io)%Z →
  stableSource rows io →
  (∀ visible row, insertRow io visible row = true) →
  columns ≠ [] →
  Batches.migrateTableData io columns s table
  = Some (true,
          mkStats (tablesProcessed s) (tablesCreated s) (primaryKeysCreated s)
            (foreignKeysCreated s) (totalRowsMigrated s + length rows)
            (errors s) (warnings s),
          table ++ rows).
Proof.
  intros Hpos [Hcount Hsel] Hacc Hcols. unfold Batches.migrateTableData.
  rewrite Hcount. destruct (Z.eqb_spec (Z.of_nat (length rows)) 0) as [Hz|Hnz].
  { destruct rows; [|done]. rewrite app_nil_r, Nat.add_0_r. by rewrite <- Stats_eta. }
  destruct columns as [|col columns]; [done|].
  pose proof (batchLoop_copies io rows table Hpos Hsel Hacc
                (S (Z.to_nat (Z.of_nat (length rows)))) 0) as Hloop.
  rewrite take_0, app_nil_r in Hloop. cbn [length] in Hloop.
  change (Z.of_nat 0) with 0%Z in Hloop.
  rewrite Hloop by lia. done.
Qed.

Lemma migrateTableData_copies_stable_source_witness :
  Batches.migrateTableData (fiveRows (λ _, true)) [aColumn] initialStats []
  = Some (true, mkStats 0 0 0 0 5 0 0, [1; 2; 3; 4; 5]).
Proof.
  refine (migrateTableData_copies_stable_source (fiveRows (λ _, true))
            [1; 2; 3; 4; 5] [aColumn] initialStats [] _ _ _ _).
  - reflexivity.
  - split; [reflexivity|]. intros offset. cbn. by rewrite Nat2Z.id.
  - reflexivity.
  - discriminate.
Defined.

(** ** The logger *)

Lemma append_assoc (a b c : string) : (a +:+ b) +:+ c = a +:+ (b +:+ c).
Proof.
  induction a as [|x a IH]; [done|]. rewrite !append_cons. by rewrite IH.
Qed.

Lemma append_empty (a : string) : a +:+ EmptyString = a.
Proof. induction a as [|x a IH]; [done|]. rewrite append_cons. by rewrite IH. Qed.

Lemma written_join (entry : string) (entries : list string) :
  join newline (entry :: entries) +:+ newline = written (entry :: entries).
Proof.
  revert entry. induction entries as [|next rest IH]; intros entry.
  - cbn [join written]. by rewrite append_empty.
  - change (join newline (entry :: next :: rest))
      with (entry +:+ newline +:+ join newline (next :: rest)).
    rewrite !append_assoc, (IH next). reflexivity.
Qed.

Lemma written_app (a b : list string) :
  written (a ++ b) = written a +:+ written b.
Proof.
  induction a as [|x a IH]; [done|]. cbn [written app].
  by rewrite IH, !append_assoc.
Qed.

Lemma flush_written (l : MigrationLogger) :
  logFile (flush l) +:+ written (buffer (flush l))
  = logFile l +:+ written (buffer l)
  ∧ buffer (flush l) = [].
Proof.
  unfold flush. destruct (buffer l) as [|entry entries] eqn:Hb.
  - by rewrite Hb.
  - cbn [logFile buffer]. by rewrite written_join, append_empty.
Qed.

Lemma handle_written (events : list LoggerEvent) :
  ∀ l, logFile (foldl handle l events) +:+ written (buffer (foldl handle l events))
       = logFile l +:+ written (buffer l ++ entriesOf events).
Proof.
  induction events as [|e events IH]; intros l; cbn [foldl entriesOf omap].
  - by rewrite app_nil_r.
  - rewrite IH. destruct e as [m|]; cbn [handle].
    + unfold log. cbn [logFile buffer]. by rewrite <- app_assoc.
    + fold (entriesOf events). rewrite !written_app, <- !append_assoc.
      by rewrite (proj1 (flush_written l)).
Qed.

(** X20. Whenever the timer has fired in between, after [close] the log
    file holds what it held before, followed by every entry that was pending
    or has been logged since, each one once, in the order logged and
    followed by a line break; and the buffer is empty. *)
Theorem close_writes_every_entry_once (events : list LoggerEvent)
    (l : MigrationLogger) :
  let l' := close (foldl handle l events) in
  logFile l' = logFile l +:+ written (buffer l ++ entriesOf events)
  ∧ buffer l' = [].
Proof.
  cbv zeta. unfold close.
  destruct (flush_written (foldl handle l events)) as [Hfile Hbuf].
  split; [|done]. rewrite <- handle_written, <- Hfile, Hbuf. cbn [written].
  by rewrite append_empty.
Qed.

(** ** resetSequences *)

(** X21. After the load of a table the sequence of each identity column is
    reset, in the order of the columns and whatever the target answers to the
    earlier ones; a refused reset counts as a warning, never as an error, and
    no other counter moves. *)
Theorem resetSequences_failures_only_warn (db : Connections)
    (schemaName tableName : string) (columns : list Column) (w : World) :
  let resetOp := λ col : Column,
    ResetSequence (fullTableName schemaName tableName) (name col) in
  let w' := (resetSequences db schemaName tableName columns w).2 in
  target w' = target w ++ (resetOp <$> filter (λ col, isIdentity col = true) columns)
  ∧ stats w'
    = mkStats (tablesProcessed (stats w)) (tablesCreated (stats w))
        (primaryKeysCreated (stats w)) (foreignKeysCreated (stats w))
        (totalRowsMigrated (stats w)) (errors (stats w))
        (warnings (stats w)
         + length (filter (λ col, pgQuery db (resetOp col) = false)
                     (filter (λ col, isIdentity col = true) columns))).
Proof.
  intros resetOp w'. unfold w'. clear w'. revert w.
  unfold resetSequences. set (body := λ col : Column, _).
  induction columns as [|col columns IH]; intros w; cbn [forM_].
  - cbn. rewrite app_nil_r, Nat.add_0_r. split; [done | apply Stats_eta].
  - rewrite bind_eq. destruct (IH (body col w).2) as [-> ->].
    rewrite !filter_cons. unfold body at 1 2 3 4 5 6 7 8.
    destruct (isIdentity col) eqn:Hid.
    + rewrite decide_True by done. rewrite filter_cons. run_M.
      fold (resetOp col). destruct (pgQuery db (resetOp col)) eqn:Hq.
      * rewrite decide_False by done. cbn. by rewrite <- app_assoc.
      * rewrite decide_True by done. cbn. rewrite <- app_assoc.
        split; [done|]. f_equal. lia.
    + by rewrite decide_False by done.
Qed.

(** ** getAllForeignKeys, then createForeignKeys *)

(** X22. The statements that [createForeignKeys] issues for the foreign keys
    found by [getAllForeignKeys] pair their columns: each names at least one
    column and as many referenced columns as columns. *)
Theorem createForeignKeys_of_query_pairs_columns (db : Connections)
    (recordset : list ForeignKeyRow.t) (w : World) :
  ∃ ops,
    target (createForeignKeys db (getAllForeignKeys recordset) w).2
    = target w ++ ops
    ∧ ∀ op, op ∈ ops →
        ∃ sourceTable fkName sourceColumns targetTable targetColumns
          onDelete onUpdate,
          op = AlterTableAddConstraint sourceTable fkName sourceColumns
                 targetTable targetColumns onDelete onUpdate
          ∧ sourceColumns ≠ []
          ∧ length sourceColumns = length targetColumns.
Proof.
  exists (alterTableOp <$> getAllForeignKeys recordset).
  split; [apply createForeignKeys_effect|].
  intros op (fk & -> & Hfk)%list_elem_of_fmap.
  destruct (getAllForeignKeys_spec recordset) as (_ & _ & Hall).
  destruct (Hall fk Hfk) as (_ & _ & Hne & Hlen).
  unfold alterTableOp. do 7 eexists. split; [reflexivity|].
  rewrite !length_fmap. split; [|done].
  intros Hnil%fmap_nil_inv. done.
Qed.
